(** * mshadow: shapes and tensor views of [tensor.h]

    A shallow embedding of [mshadow::Shape<dimension>] and
    [mshadow::Tensor<Device,dimension>] together with the geometric
    queries, the indexing and the slicing of [tensor.h], and of the
    plan evaluation engine that [tensor.h] declares. *)

From Stdlib Require Import ZArith List Lia.
From stdpp Require Import base list.

Local Open Scope Z_scope.

(** ** Integer types

    [index_t] and [real_t] come from [tensor_base.h], which is not among
    the sources.  [index_t] is taken as an unsigned integer type of
    [index_bits] bits and [size_t] as one of [size_bits] bits, with
    [index_t] no wider than [size_t], so that an [index_t] operand next
    to a [size_t] one is converted to [size_t].  A [real_t*] is the
    position of a scalar in the flat array of scalars that makes up the
    address space, which has [2 ^ ptr_bits] cells; [size_t] can count
    them all.  Values of the three types are carried as [Z] and every
    operation of the source writes its wrap-around out. *)
Class IntModel := {
  index_bits : Z;
  size_bits : Z;
  ptr_bits : Z;
  index_bits_range : 0 < index_bits <= size_bits;
  ptr_bits_range : 0 <= ptr_bits <= size_bits
}.

(** The usual 64-bit target: [typedef unsigned index_t], a 64-bit
    [size_t], and 4-byte scalars behind 64-bit byte addresses. *)
Definition lp64_index_bits_range : 0 < 32 <= 64.
Proof. lia. Defined.

Definition lp64_ptr_bits_range : 0 <= 62 <= 64.
Proof. lia. Defined.

Definition lp64 : IntModel := {|
  index_bits := 32;
  size_bits := 64;
  ptr_bits := 62;
  index_bits_range := lp64_index_bits_range;
  ptr_bits_range := lp64_ptr_bits_range
|}.

Section Embedding.
Context `{IM : IntModel}.

(** Reduction of a mathematical integer to an unsigned [w]-bit one. *)
Definition wrap (w x : Z) : Z := x mod 2 ^ w.

(** Conversion to [index_t], to [size_t], and to a pointer. *)
Definition to_index (x : Z) : Z := wrap index_bits x.
Definition to_size (x : Z) : Z := wrap size_bits x.
Definition to_ptr (x : Z) : Z := wrap ptr_bits x.

(** [a * b] and [a - b] on [index_t], [a * b] on [size_t]. *)
Definition index_mul (a b : Z) : Z := to_index (a * b).
Definition index_sub (a b : Z) : Z := to_index (a - b).
Definition size_mul (a b : Z) : Z := to_size (a * b).

(** [p + n] for a [real_t*] p and an unsigned offset [n], in scalars. *)
Definition ptr_add (p n : Z) : Z := to_ptr (p + n).

(** The values an [index_t] can hold. *)
Definition is_index (x : Z) : Prop := 0 <= x < 2 ^ index_bits.

(** ** Shape<dimension>

    [shape_] is the array [index_t shape_[zMaxShape]], lowest dimension
    first, and [stride_] the allocated extent of dimension 0.  The
    template parameter [dimension] is the length of [shape_]. *)
Record Shape := mkShape {
  shape_ : list Z;
  stride_ : Z
}.

Definition zMaxShape (s : Shape) : nat := length (shape_ s).
Definition zSubShape (s : Shape) : nat := (zMaxShape s - 1)%nat.

(** [operator[]]: the array is read without a bounds check; a read past
    its end, which the source leaves undefined, gives 0 here. *)
Definition at_ (s : Shape) (idx : nat) : Z := nth idx (shape_ s) 0.

Definition stride (s : Shape) : Z := stride_ s.

(** [operator==]: the loop [for (i = 0; i < zMaxShape; i++)], run for
    the [n] iterations that remain from index [i] on. *)
Fixpoint eq_loop (this s : Shape) (i : nat) (n : nat) : bool :=
  match n with
  | O => true
  | S n' =>
      if negb (at_ s i =? at_ this i) then false
      else eq_loop this s (S i) n'
  end.

Definition Shape_eqb (this s : Shape) : bool :=
  eq_loop this s 0 (zMaxShape this).

(** The loop [for (i = 1; i < zMaxShape; ++i) acc *= shape_[i]] shared
    by [FlatTo2D], [Size] and [MSize]; [mul] is the multiplication of
    the accumulator's type and [cast] the conversion of an extent to
    that type. *)
Fixpoint mul_loop (mul : Z -> Z -> Z) (cast : Z -> Z)
    (this : Shape) (acc : Z) (i : nat) (n : nat) : Z :=
  match n with
  | O => acc
  | S n' => mul_loop mul cast this (mul acc (cast (at_ this i))) (S i) n'
  end.

(** [FlatTo2D]: [ymax] is an [index_t]. *)
Definition FlatTo2D (this : Shape) : Shape :=
  let ymax := mul_loop index_mul (fun x => x) this 1 1 (zMaxShape this - 1) in
  mkShape [at_ this 0; ymax] (stride_ this).

(** [Size]: [memsz] is a [size_t] that starts from [shape_[0]]. *)
Definition Size (this : Shape) : Z :=
  mul_loop size_mul to_size this (to_size (at_ this 0)) 1 (zMaxShape this - 1).

(** [MSize]: [memsz] is a [size_t] that starts from [stride_]. *)
Definition MSize (this : Shape) : Z :=
  mul_loop size_mul to_size this (to_size (stride_ this)) 1 (zMaxShape this - 1).

(** [SubShape]: the first [zSubShape] extents and the stride. *)
Definition SubShape (this : Shape) : Shape :=
  mkShape (map (at_ this) (seq 0 (zSubShape this))) (stride_ this).

(** The shape builders; they leave [stride_] unset, which is carried as
    the argument [u]. *)
Definition Shape1 (u s0 : Z) : Shape := mkShape [s0] u.
Definition Shape2 (u s1 s0 : Z) : Shape := mkShape [s0; s1] u.
Definition Shape3 (u s2 s1 s0 : Z) : Shape := mkShape [s0; s1; s2] u.
Definition Shape4 (u s3 s2 s1 s0 : Z) : Shape := mkShape [s0; s1; s2; s3] u.

(** ** Tensor<Device,dimension>

    A handle: a data pointer and a shape.  The device is a compile-time
    tag without run-time content and is left out. *)
Record Tensor := mkTensor {
  dptr : Z;
  shape : Shape
}.

Definition dimension (t : Tensor) : nat := zMaxShape (shape t).

Definition Tensor_FlatTo2D (t : Tensor) : Tensor :=
  mkTensor (dptr t) (FlatTo2D (shape t)).

(** [operator[]] of the general template: a view of one dimension less. *)
Definition Tensor_at (t : Tensor) (idx : Z) : Tensor :=
  let s := SubShape (shape t) in
  mkTensor (ptr_add (dptr t) (size_mul (MSize s) (to_size idx))) s.

(** [Slice] of the general template. *)
Definition Tensor_Slice (t : Tensor) (begin_ end_ : Z) : Tensor :=
  let s := mkShape (<[ (dimension t - 1)%nat := index_sub end_ begin_ ]> (shape_ (shape t)))
                   (stride_ (shape t)) in
  mkTensor (ptr_add (dptr t) (size_mul (MSize (SubShape s)) (to_size begin_))) s.

(** [Slice] and [operator[]] of the specialisation [Tensor<Device,1>];
    the latter returns a reference, that is the address of a scalar. *)
Definition Tensor1_Slice (t : Tensor) (begin_ end_ : Z) : Tensor :=
  let d := index_sub end_ begin_ in
  mkTensor (ptr_add (dptr t) begin_) (mkShape [d] d).

Definition Tensor1_at (t : Tensor) (idx : Z) : Z := ptr_add (dptr t) idx.

(** What [t[idx]] and [t.Slice(b, e)] resolve to: the specialisation
    when [dimension] is 1, the general template otherwise. *)
Inductive Element :=
  | SubTensor (v : Tensor)
  | ScalarRef (a : Z).

Definition index (t : Tensor) (idx : Z) : Element :=
  if Nat.eqb (dimension t) 1 then ScalarRef (Tensor1_at t idx)
  else SubTensor (Tensor_at t idx).

Definition Slice (t : Tensor) (begin_ end_ : Z) : Tensor :=
  if Nat.eqb (dimension t) 1 then Tensor1_Slice t begin_ end_
  else Tensor_Slice t begin_ end_.

End Embedding.

(** ** Expressions, plans and the evaluation engine

    [tensor.h] only declares [expr::Plan], [MapPlan] and [MapExp]; their
    bodies, the expression nodes and the savers live in [tensor_expr.h]
    and [tensor_expr_engine-inl.hpp], which are not among the sources.
    This section follows the specification of the engine.  The scalar
    type [real_t] and the elementwise operators are supplied from
    outside the engine and stay abstract. *)
Section Engine.
Context `{IM : IntModel}.
Variable real_t : Type.

(** Device memory: the scalar stored at each address. *)
Definition Memory : Type := Z -> real_t.

Definition store (m : Memory) (a : Z) (v : real_t) : Memory :=
  fun b => if Z.eqb b a then v else m b.

(** The address of the scalar at row [y], column [x] of a rank-2 view,
    [t2[y][x]] with the two [operator[]] of the source. *)
Definition at2 (t2 : Tensor) (y x : Z) : Z := Tensor1_at (Tensor_at t2 y) x.

(** The same for a view of any rank, through its flattening. *)
Definition cell (t : Tensor) (y x : Z) : Z := at2 (Tensor_FlatTo2D t) y x.

(** Height and width of the two-dimensional coordinate space of a view. *)
Definition height (t : Tensor) : Z := at_ (shape (Tensor_FlatTo2D t)) 1.
Definition width (t : Tensor) : Z := at_ (shape (Tensor_FlatTo2D t)) 0.

(** Modelled from the spec: the expression nodes (section 4.3), which
    are defined in [tensor_expr.h]: a leaf is an array handle, a scalar
    is broadcast, and unary and binary nodes carry an elementwise
    operator.  Aggregate nodes go through a code path of their own that
    the specification leaves open; they are not part of this type. *)
Inductive Exp :=
  | ETensor (t : Tensor)
  | EScalar (k : real_t)
  | EUnary (f : real_t -> real_t) (e : Exp)
  | EBinary (op : real_t -> real_t -> real_t) (lhs rhs : Exp).

(** Modelled from the spec: the plan of section 4.4, whose class
    [expr::Plan] is only declared in [tensor.h]: a tree isomorphic to
    the expression, each node holding its children's plans and the
    pointer or scalar it needs; a leaf holds the flattened view. *)
Inductive Plan :=
  | PTensor (t2 : Tensor)
  | PScalar (k : real_t)
  | PUnary (f : real_t -> real_t) (p : Plan)
  | PBinary (op : real_t -> real_t -> real_t) (lhs rhs : Plan).

(** Modelled from the spec: the one operation of a plan, missing with
    the body of [expr::Plan]: evaluate at (row, column); a binary plan
    evaluates both children at the same coordinate and combines them. *)
Fixpoint Eval (p : Plan) (m : Memory) (y x : Z) : real_t :=
  match p with
  | PTensor t2 => m (at2 t2 y x)
  | PScalar k => k
  | PUnary f q => f (Eval q m y x)
  | PBinary op l r => op (Eval l m y x) (Eval r m y x)
  end.

(** Modelled from the spec: the recursive plan construction of section
    4.4 ([MakePlan] of [tensor_expr_engine-inl.hpp]), one plan per node. *)
Fixpoint MakePlan (e : Exp) : Plan :=
  match e with
  | ETensor t => PTensor (Tensor_FlatTo2D t)
  | EScalar k => PScalar k
  | EUnary f a => PUnary f (MakePlan a)
  | EBinary op l r => PBinary op (MakePlan l) (MakePlan r)
  end.

(** Modelled from the spec: the store policy (the savers of
    [tensor_expr.h]): how the old content of a destination cell and the
    evaluated value give the stored one.  [saveto] overwrites. *)
Definition Saver : Type := real_t -> real_t -> real_t.

Definition saveto : Saver := fun _ v => v.

(** Modelled from the spec: one step of the evaluation driver, missing
    with the body of [MapPlan]: evaluate the plan at a coordinate and
    store the result in the destination through the saver. *)
Definition MapCell (save : Saver) (d2 : Tensor) (plan : Plan)
    (m : Memory) (c : Z * Z) : Memory :=
  let a := at2 d2 (fst c) (snd c) in
  store m a (save (m a) (Eval plan m (fst c) (snd c))).

(** Modelled from the spec: the order in which the driver of section
    4.4, missing with the body of [MapPlan], walks a [h] by [w]
    coordinate space on the host, a sequential loop: rows outside,
    columns inside. *)
Definition coords (h w : Z) : list (Z * Z) :=
  y ← seqZ 0 h; x ← seqZ 0 w; [(y, x)].

(** Modelled from the spec: the evaluation driver of section 4.4, the
    host [MapPlan] that [tensor.h] declares: flatten the destination to
    two dimensions and, for every (row, column), evaluate and store. *)
Definition MapPlan (save : Saver) (dst : Tensor) (plan : Plan)
    (m : Memory) : Memory :=
  let d2 := Tensor_FlatTo2D dst in
  fold_left (MapCell save d2 plan) (coords (at_ (shape d2) 1) (at_ (shape d2) 0)) m.

(** Modelled from the spec: the entry point of section 4.4, the [MapExp]
    that [tensor.h] declares: build the plan tree and run the driver.
    The match of the shapes is the caller's obligation and is not
    checked at run time. *)
Definition MapExp (save : Saver) (dst : Tensor) (e : Exp) (m : Memory) : Memory :=
  MapPlan save dst (MakePlan e) m.

(** Modelled from the spec: assignment of an expression to a handle
    ([operator=], through [__assign] of [tensor_expr.h]) evaluates it
    into the handle with the overwriting saver. *)
Definition assign (dst : Tensor) (e : Exp) (m : Memory) : Memory :=
  MapExp saveto dst e m.

End Engine.

Arguments ETensor {real_t} t.
Arguments EScalar {real_t} k.
Arguments EUnary {real_t} f e.
Arguments EBinary {real_t} op lhs rhs.
Arguments PTensor {real_t} t2.
Arguments PScalar {real_t} k.
Arguments PUnary {real_t} f p.
Arguments PBinary {real_t} op lhs rhs.
Arguments store {real_t} m a v _.
Arguments Eval {IM real_t} p m y x.
Arguments MakePlan {IM real_t} e.
Arguments saveto {real_t} _ _.
Arguments MapCell {IM real_t} save d2 plan m c _.
Arguments MapPlan {IM real_t} save dst plan m _.
Arguments MapExp {IM real_t} save dst e m _.
Arguments assign {IM real_t} dst e m _.

(** ** The quantities of the specification *)

(** The product of a list of extents. *)
Definition product (l : list Z) : Z := fold_right Z.mul 1 l.

(** The extents 1 .. D-1 of a shape, all but the lowest. *)
Definition upper (s : Shape) : list Z := tl (shape_ s).

(** The fields of a shape hold [index_t] values. *)
Definition Shape_ok `{IM : IntModel} (s : Shape) : Prop :=
  Forall is_index (shape_ s) /\ is_index (stride_ s).

(** The invariant of the padding: the allocated extent of dimension 0
    covers the logical one. *)
Definition padded (s : Shape) : Prop := at_ s 0 <= stride_ s.

(** ** Aliasing between handles

    Handles do not own their cells and may overlap.  The predicates
    below speak of the cells that the coordinates of the flattened
    destination select in each handle. *)
Section Aliasing.
Context `{IM : IntModel}.

(** The cell of a handle at a coordinate pair (row, column). *)
Definition cell_at (t : Tensor) (c : Z * Z) : Z := cell t (fst c) (snd c).

(** The coordinates that the driver visits for a destination. *)
Definition in_space (dst : Tensor) (c : Z * Z) : Prop :=
  (0 <= fst c < height dst) /\ (0 <= snd c < width dst).

(** A source and the destination share a cell at most at one and the
    same coordinate: no cell of the source is written before it is
    read. *)
Definition no_hazard (src dst : Tensor) : Prop :=
  forall c c', in_space dst c -> in_space dst c' ->
    cell_at src c = cell_at dst c' -> c = c'.

(** The cells of a buffer are pairwise distinct. *)
Definition distinct_cells (buf dst : Tensor) : Prop :=
  forall c c', in_space dst c -> in_space dst c' ->
    cell_at buf c = cell_at buf c' -> c = c'.

(** No cell of a buffer is a cell of another handle. *)
Definition apart (buf other dst : Tensor) : Prop :=
  forall c c', in_space dst c -> in_space dst c' ->
    cell_at buf c <> cell_at other c'.

(** A handle laid out as an allocation leaves it: the rows of the
    flattened view follow one another [stride_] cells apart, none wider
    than the stride, and the whole block lies inside the address
    space. *)
Definition block_end (t : Tensor) : Z :=
  dptr t + stride_ (shape t) * height t.

Definition well_placed (t : Tensor) : Prop :=
  0 <= dptr t
  /\ 0 <= width t <= stride_ (shape t)
  /\ block_end t <= 2 ^ ptr_bits.

End Aliasing.

(** ** The two evaluations of (A + B) * C *)
Section Fusion.
Context `{IM : IntModel}.
Variable real_t : Type.
Variables add mul : real_t -> real_t -> real_t.

(** [dst = (A + B) * C], one fused expression. *)
Definition fused (dst A B C : Tensor) (m : Memory real_t) : Memory real_t :=
  assign dst (EBinary mul (EBinary add (ETensor A) (ETensor B)) (ETensor C)) m.

(** [tmp = A + B] and then [dst = tmp * C]. *)
Definition eager (tmp dst A B C : Tensor) (m : Memory real_t) : Memory real_t :=
  assign dst (EBinary mul (ETensor tmp) (ETensor C))
    (assign tmp (EBinary add (ETensor A) (ETensor B)) m).

(** The addresses that a plan reads at a coordinate. *)
Fixpoint reads (p : Plan real_t) (y x : Z) : list Z :=
  match p with
  | PTensor t2 => [at2 t2 y x]
  | PScalar _ => []
  | PUnary _ q => reads q y x
  | PBinary _ l r => reads l y x ++ reads r y x
  end.

End Fusion.

Arguments fused {IM real_t} add mul dst A B C m _.
Arguments eager {IM real_t} add mul tmp dst A B C m _.
Arguments reads {IM real_t} p y x.

(** ** Sample shapes and handles on the 64-bit target *)

(** 2^31 by 2^31 by 4 scalars, rows without padding. *)
Definition huge3 : Shape := mkShape [2 ^ 31; 2 ^ 31; 4] (2 ^ 31).

(** Rows of 3 scalars padded to 4, 2^31 by 2^31 of them. *)
Definition wide3 : Shape := mkShape [3; 2 ^ 31; 2 ^ 31] 4.

(** A single column of 65536 by 65536 scalars. *)
Definition tall3 : Shape := mkShape [1; 65536; 65536] 1.

(** Three rows of five scalars padded to eight, in two planes. *)
Definition small3 : Shape := mkShape [5; 3; 2] 8.

(** A vector of four scalars in a row padded to eight. *)
Definition vec4 : Tensor := mkTensor 0 (mkShape [4] 8).

(** Four planes of three rows of five scalars padded to eight. *)
Definition cube : Tensor := mkTensor 100 (mkShape [5; 3; 4] 8).

(** A vector of four scalars and three overlapping windows of two
    scalars on it: [winA] on cells 0 and 1, [winD] on cells 1 and 2,
    [winB] on cells 2 and 3. *)
Definition row4 : Tensor := mkTensor 0 (mkShape [4] 4).
Definition winA : Tensor := Slice (IM := lp64) row4 0 2.
Definition winD : Tensor := Slice (IM := lp64) row4 1 3.
Definition winB : Tensor := Slice (IM := lp64) row4 2 4.

(** Vectors of two scalars on cells of their own. *)
Definition pair_at (p : Z) : Tensor := mkTensor p (mkShape [2] 2).

(** A memory of integers, which stand for the scalars of the same
    value: 1, 2, 3, 4 in the cells of [row4], 1 in cells 8 and 9. *)
Definition mem1234 : Memory Z :=
  fun a =>
    if a =? 0 then 1 else if a =? 1 then 2 else if a =? 2 then 3
    else if a =? 3 then 4 else if a =? 8 then 1 else if a =? 9 then 1
    else 0.

(** ** Further code of [tensor.h] *)

(** The copy constructor of [Shape]: the loop copies the [zMaxShape]
    extents one by one, then the stride. *)
Definition Shape_copy (s : Shape) : Shape :=
  mkShape (map (at_ s) (seq 0 (zMaxShape s))) (stride_ s).

Section Subscripts.
Context `{IM : IntModel}.

(** [t[i_{D-1}]...[i_1][i_0]]: the subscripts are applied one after the
    other, outermost first; each [operator[]] is the one that the
    dimension of the handle at hand selects.  Subscripting a scalar
    reference does not compile and has no result. *)
Fixpoint subscript (t : Tensor) (idxs : list Z) : option Element :=
  match idxs with
  | [] => Some (SubTensor t)
  | i :: rest =>
      match index t i with
      | SubTensor v => subscript v rest
      | ScalarRef a =>
          match rest with
          | [] => Some (ScalarRef a)
          | _ :: _ => None
          end
      end
  end.

(** A handle that views allocated memory: its fields hold [index_t]
    values and its block, [stride_] times the upper extents long, lies
    inside the address space. *)
Definition in_memory (t : Tensor) : Prop :=
  Shape_ok (shape t)
  /\ 0 <= dptr t
  /\ dptr t + stride_ (shape t) * product (upper (shape t)) < 2 ^ ptr_bits.

End Subscripts.

(** The row of the flattened view that the upper subscripts
    [i_{D-1}; ...; i_1], outermost first, select in a handle whose upper
    extents are [es], lowest first: the sum of [i_k] times the product
    of the extents 1 .. k-1. *)
Fixpoint flat_row (es : list Z) (ups : list Z) : Z :=
  match ups with
  | [] => 0
  | i :: rest => i * product (take (length rest) es) + flat_row es rest
  end.

(** The outermost extent of a shape. *)
Definition outer (s : Shape) : Z := at_ s (zMaxShape s - 1).

(** Two planes of no rows of five scalars. *)
Definition holed3 : Shape := mkShape [5; 0; 2] 8.

(** Six rows of five scalars padded to eight. *)
Definition flat56 : Shape := mkShape [5; 6] 8.

(** * Properties *)

(** ** Wrap-around arithmetic *)
Section Arith.
Context `{IM : IntModel}.

Lemma pow2_pos (w : Z) : 0 <= w -> 0 < 2 ^ w.
Proof. intros Hw. apply Z.pow_pos_nonneg; lia. Qed.

Lemma wrap_range (w x : Z) : 0 <= w -> 0 <= wrap w x < 2 ^ w.
Proof. intros Hw. unfold wrap. apply Z.mod_pos_bound, pow2_pos, Hw. Qed.

Lemma wrap_small (w x : Z) : 0 <= x < 2 ^ w -> wrap w x = x.
Proof. intros Hx. unfold wrap. apply Z.mod_small, Hx. Qed.

Lemma wrap_mul_l (w a b : Z) : wrap w (wrap w a * b) = wrap w (a * b).
Proof. unfold wrap. apply Zmult_mod_idemp_l. Qed.

Lemma wrap_mul_r (w a b : Z) : wrap w (a * wrap w b) = wrap w (a * b).
Proof. unfold wrap. apply Zmult_mod_idemp_r. Qed.

Lemma wrap_add_l (w a b : Z) : wrap w (wrap w a + b) = wrap w (a + b).
Proof. unfold wrap. apply Zplus_mod_idemp_l. Qed.

Lemma wrap_add_r (w a b : Z) : wrap w (a + wrap w b) = wrap w (a + b).
Proof. unfold wrap. apply Zplus_mod_idemp_r. Qed.

(** Reducing to a wide type first does not change the reduction to a
    narrower one. *)
Lemma wrap_narrow (n w x : Z) : 0 <= n <= w -> wrap n (wrap w x) = wrap n x.
Proof.
  intros Hnw. unfold wrap. apply Z.mod_mod_divide.
  exists (2 ^ (w - n)). rewrite <- Z.pow_add_r by lia. f_equal. lia.
Qed.

Lemma pow2_mono (n w : Z) : 0 <= n <= w -> 2 ^ n <= 2 ^ w.
Proof. intros Hnw. apply Z.pow_le_mono_r; lia. Qed.

Lemma is_index_to_index (x : Z) : is_index x -> to_index x = x.
Proof. intros Hx. apply wrap_small, Hx. Qed.

Lemma is_index_to_size (x : Z) : is_index x -> to_size x = x.
Proof.
  intros [H0 H1]. apply wrap_small.
  pose proof (pow2_mono index_bits size_bits) as Hm.
  pose proof index_bits_range. lia.
Qed.

Lemma index_sub_exact (b e : Z) :
  is_index b -> is_index e -> b <= e -> index_sub e b = e - b.
Proof.
  intros [Hb0 Hb1] [He0 He1] Hbe. unfold index_sub.
  apply is_index_to_index. unfold is_index. lia.
Qed.

Lemma size_mul_to_size (a b : Z) :
  size_mul (to_size a) (to_size b) = to_size (a * b).
Proof.
  unfold size_mul, to_size. rewrite wrap_mul_l. apply wrap_mul_r.
Qed.

Lemma index_mul_to_index (a b : Z) :
  index_mul (to_index a) b = to_index (a * b).
Proof. unfold index_mul, to_index. apply wrap_mul_l. Qed.

(** A pointer moved by a [size_t] product lands where the exact product
    leads: the address space is no larger than the range of [size_t]. *)
Lemma ptr_add_size_mul (p a b : Z) :
  ptr_add p (size_mul a (to_size b)) = ptr_add p (a * b).
Proof.
  unfold ptr_add, size_mul, to_ptr, to_size.
  rewrite wrap_mul_r.
  rewrite <- wrap_add_r, wrap_narrow by apply ptr_bits_range.
  apply wrap_add_r.
Qed.

(** Inside the address space pointer arithmetic is exact. *)
Lemma ptr_add_exact (p n : Z) :
  0 <= p + n < 2 ^ ptr_bits -> ptr_add p n = p + n.
Proof. intros H. apply wrap_small, H. Qed.

Lemma ptr_add_to_size_mul (p a b : Z) :
  ptr_add p (to_size a * b) = ptr_add p (a * b).
Proof.
  unfold ptr_add, to_ptr, to_size.
  rewrite <- wrap_add_r, <- wrap_mul_l, wrap_narrow by apply ptr_bits_range.
  rewrite wrap_mul_l. apply wrap_add_r.
Qed.

Lemma ptr_add_ptr_add (p a b : Z) :
  ptr_add (ptr_add p a) b = ptr_add p (a + b).
Proof.
  unfold ptr_add, to_ptr. rewrite wrap_add_l. f_equal. lia.
Qed.

End Arith.

(** ** Shapes: the loops in closed form *)
Section ShapeFacts.
Context `{IM : IntModel}.

Lemma map_nth_seq (l : list Z) :
  map (fun k => nth k l 0) (seq 0 (length l)) = l.
Proof.
  induction l as [|x l IH]; simpl; [reflexivity|].
  f_equal. rewrite <- seq_shift, map_map. exact IH.
Qed.

Lemma map_nth_take (l : list Z) (n : nat) :
  (n <= length l)%nat -> map (fun k => nth k l 0) (seq 0 n) = take n l.
Proof.
  revert n. induction l as [|x l IH]; intros [|n] Hn; simpl in *;
    try reflexivity; try lia.
  f_equal. rewrite <- seq_shift, map_map. apply IH. lia.
Qed.

Lemma upper_seq (s : Shape) :
  map (at_ s) (seq 1 (zMaxShape s - 1)) = upper s.
Proof.
  unfold at_, upper, zMaxShape. destruct (shape_ s) as [|x l]; simpl.
  - reflexivity.
  - rewrite Nat.sub_0_r, <- seq_shift, map_map. apply map_nth_seq.
Qed.

Lemma product_nonneg (l : list Z) : Forall (fun x => 0 <= x) l -> 0 <= product l.
Proof.
  induction 1 as [|x l Hx _ IH]; simpl; [lia|].
  apply Z.mul_nonneg_nonneg; assumption.
Qed.

Lemma shape_split (s : Shape) :
  (1 <= zMaxShape s)%nat -> shape_ s = at_ s 0 :: upper s.
Proof.
  unfold zMaxShape, at_, upper. destruct (shape_ s); simpl; [lia|reflexivity].
Qed.

Lemma upper_rank1 (s : Shape) : zMaxShape s = 1%nat -> upper s = [].
Proof.
  unfold upper, zMaxShape. destruct (shape_ s) as [|x [|y l]]; simpl;
    intros H; try reflexivity; lia.
Qed.

(** The [size_t] loop multiplies modulo [2 ^ size_bits]. *)
Lemma mul_loop_size (this : Shape) (n : nat) :
  forall acc i,
    mul_loop size_mul to_size this (to_size acc) i n
    = to_size (acc * product (map (at_ this) (seq i n))).
Proof.
  induction n as [|n IH]; intros acc i; simpl.
  - f_equal. lia.
  - rewrite size_mul_to_size, IH. f_equal. lia.
Qed.

(** The [index_t] loop multiplies modulo [2 ^ index_bits]. *)
Lemma mul_loop_index (this : Shape) (n : nat) :
  forall acc i,
    mul_loop index_mul (fun x => x) this (to_index acc) i n
    = to_index (acc * product (map (at_ this) (seq i n))).
Proof.
  induction n as [|n IH]; intros acc i; simpl.
  - f_equal. lia.
  - rewrite index_mul_to_index, IH. f_equal. lia.
Qed.

Lemma Size_closed (s : Shape) :
  Size s = to_size (at_ s 0 * product (upper s)).
Proof. unfold Size. rewrite mul_loop_size, upper_seq. reflexivity. Qed.

Lemma MSize_closed (s : Shape) :
  MSize s = to_size (stride_ s * product (upper s)).
Proof. unfold MSize. rewrite mul_loop_size, upper_seq. reflexivity. Qed.

Lemma to_index_1 : to_index 1 = 1.
Proof.
  apply wrap_small. pose proof index_bits_range as Hr.
  assert (2 ^ 1 <= 2 ^ index_bits) by (apply Z.pow_le_mono_r; lia).
  change (2 ^ 1) with 2 in *. lia.
Qed.

Lemma FlatTo2D_closed (s : Shape) :
  FlatTo2D s = mkShape [at_ s 0; to_index (product (upper s))] (stride_ s).
Proof.
  unfold FlatTo2D. rewrite <- to_index_1 at 1.
  rewrite mul_loop_index, upper_seq, Z.mul_1_l. reflexivity.
Qed.

Lemma SubShape_closed (s : Shape) :
  SubShape s = mkShape (take (zMaxShape s - 1) (shape_ s)) (stride_ s).
Proof.
  unfold SubShape, zSubShape, at_. f_equal.
  apply map_nth_take. unfold zMaxShape. lia.
Qed.

Lemma at_SubShape (s : Shape) (i : nat) :
  (i < zMaxShape s - 1)%nat -> at_ (SubShape s) i = at_ s i.
Proof.
  intros Hi. rewrite SubShape_closed. unfold at_; simpl.
  rewrite nth_firstn. destruct (Nat.ltb_spec i (zMaxShape s - 1)); [reflexivity|lia].
Qed.

Lemma zMaxShape_SubShape (s : Shape) :
  zMaxShape (SubShape s) = (zMaxShape s - 1)%nat.
Proof.
  rewrite SubShape_closed. unfold zMaxShape; simpl.
  rewrite length_take. lia.
Qed.

End ShapeFacts.

(** ** Shapes: size, allocated size, flattening, equality *)
Section ShapeClaims.
Context `{IM : IntModel}.

(** C5, as amended: for a shape of rank at least 1, [Size()] is the
    product of all the extents reduced modulo [2 ^ size_bits], the range
    of [size_t]; it is the product itself whenever that fits in
    [size_t]; and it does not depend on the stride. *)
Theorem Size_product_mod (s : Shape) (p : Z) :
  (1 <= zMaxShape s)%nat ->
  Size s = wrap size_bits (product (shape_ s))
  /\ (0 <= product (shape_ s) < 2 ^ size_bits -> Size s = product (shape_ s))
  /\ Size (mkShape (shape_ s) p) = Size s.
Proof.
  intros HD.
  assert (Hp : Size s = wrap size_bits (product (shape_ s))).
  { rewrite Size_closed, (shape_split s HD). reflexivity. }
  split; [exact Hp|]. split.
  - intros Hfit. rewrite Hp. apply wrap_small, Hfit.
  - rewrite !Size_closed. reflexivity.
Qed.

(** C6, as amended: for a shape of rank at least 1 that holds
    [index_t] values with [stride_ >= shape_[0]], [MSize()] is
    [stride_] times the product of the extents 1 .. D-1, reduced modulo
    [2 ^ size_bits]; whenever that product fits in [size_t], [MSize()]
    is exactly it and [MSize() >= Size()]. *)
Theorem MSize_padded_product (s : Shape) :
  (1 <= zMaxShape s)%nat ->
  Shape_ok s ->
  padded s ->
  MSize s = wrap size_bits (stride_ s * product (upper s))
  /\ (stride_ s * product (upper s) < 2 ^ size_bits ->
      MSize s = stride_ s * product (upper s) /\ Size s <= MSize s).
Proof.
  intros HD [Hext Hstr] Hpad. rewrite MSize_closed, Size_closed.
  split; [reflexivity|]. intros Hfit.
  rewrite (shape_split s HD) in Hext.
  apply Forall_cons in Hext as [[H0 _] Hup].
  assert (Hprod : 0 <= product (upper s)).
  { apply product_nonneg. eapply Forall_impl; [exact Hup|].
    intros x [Hx _]. exact Hx. }
  unfold padded in Hpad.
  assert (Hle : at_ s 0 * product (upper s) <= stride_ s * product (upper s))
    by (apply Z.mul_le_mono_nonneg_r; lia).
  assert (Hlo : 0 <= at_ s 0 * product (upper s))
    by (apply Z.mul_nonneg_nonneg; lia).
  unfold to_size. rewrite !wrap_small by lia. split; [reflexivity|exact Hle].
Qed.

(** C7, as amended: for a shape of rank at least 1, [FlatTo2D()] is a
    rank-2 shape with the same extent 0 and the same stride, whose
    extent 1 is the product of the extents 1 .. D-1 reduced modulo
    [2 ^ index_bits], the range of [index_t].  Whenever that product
    fits in [index_t], extent 1 is exactly it and the flat shape has the
    [Size()] of the original.  For rank 1 the flat shape is a single
    row, of height 1, with the [Size()] of the original, which is its
    width. *)
Theorem FlatTo2D_extents (s : Shape) :
  (1 <= zMaxShape s)%nat ->
  zMaxShape (FlatTo2D s) = 2%nat
  /\ at_ (FlatTo2D s) 0 = at_ s 0
  /\ at_ (FlatTo2D s) 1 = wrap index_bits (product (upper s))
  /\ stride_ (FlatTo2D s) = stride_ s
  /\ (0 <= product (upper s) < 2 ^ index_bits ->
      at_ (FlatTo2D s) 1 = product (upper s)
      /\ Size (FlatTo2D s) = Size s)
  /\ (zMaxShape s = 1%nat ->
      at_ (FlatTo2D s) 1 = 1
      /\ Size (FlatTo2D s) = Size s
      /\ (is_index (at_ s 0) -> at_ (FlatTo2D s) 0 = Size s)).
Proof.
  intros HD.
  assert (Hf : FlatTo2D s
               = mkShape [at_ s 0; wrap index_bits (product (upper s))] (stride_ s))
    by apply FlatTo2D_closed.
  assert (Hsz : Size (FlatTo2D s)
                = to_size (at_ s 0 * wrap index_bits (product (upper s)))).
  { rewrite Size_closed, Hf. unfold at_, upper; simpl. f_equal. lia. }
  rewrite Hsz, Hf, (Size_closed s). clear Hf Hsz.
  split; [reflexivity|]. split; [reflexivity|].
  split; [reflexivity|]. split; [reflexivity|]. split.
  - intros Hfit. unfold at_ at 1; simpl.
    rewrite wrap_small by exact Hfit. split; reflexivity.
  - intros H1. rewrite (upper_rank1 s H1).
    change (wrap index_bits (product [])) with (to_index 1).
    rewrite to_index_1. split; [reflexivity|]. split; [reflexivity|].
    intros Hidx. change (product []) with 1. rewrite Z.mul_1_r.
    symmetry. apply is_index_to_size, Hidx.
Qed.

Lemma eq_loop_spec (this s : Shape) (n : nat) :
  forall i,
    eq_loop this s i n = true
    <-> (forall k, (i <= k < i + n)%nat -> at_ this k = at_ s k).
Proof.
  induction n as [|n IH]; intros i; simpl.
  - split; [intros _ k Hk; lia|reflexivity].
  - destruct (Z.eqb_spec (at_ s i) (at_ this i)) as [He|Hne]; simpl.
    + rewrite IH. split; intros H k Hk.
      * destruct (Nat.eq_dec k i) as [->|Hki]; [congruence|].
        apply H. lia.
      * apply H. lia.
    + split; [discriminate|]. intros H. exfalso. apply Hne.
      symmetry. apply H. lia.
Qed.

Lemma eq_loop_extents (this s this' s' : Shape) (n : nat) :
  shape_ this = shape_ this' -> shape_ s = shape_ s' ->
  forall i, eq_loop this s i n = eq_loop this' s' i n.
Proof.
  intros Ha Hb. induction n as [|n IH]; intros i; simpl; [reflexivity|].
  unfold at_. rewrite Ha, Hb, IH. reflexivity.
Qed.

(** C8: for two shapes of the same rank, [operator==] returns true if
    and only if all their extents are pairwise equal; the strides of
    the two shapes play no part. *)
Theorem Shape_eqb_extents (a b : Shape) :
  zMaxShape a = zMaxShape b ->
  (Shape_eqb a b = true
   <-> (forall i, (i < zMaxShape a)%nat -> at_ a i = at_ b i))
  /\ (Shape_eqb a b = true <-> shape_ a = shape_ b)
  /\ (forall p q,
        Shape_eqb (mkShape (shape_ a) p) (mkShape (shape_ b) q)
        = Shape_eqb a b).
Proof.
  intros Hrank.
  assert (Hpt : Shape_eqb a b = true
                <-> (forall i, (i < zMaxShape a)%nat -> at_ a i = at_ b i)).
  { unfold Shape_eqb. rewrite eq_loop_spec. split; intros H i Hi; apply H; lia. }
  split; [exact Hpt|]. split.
  - rewrite Hpt. split.
    + intros H. apply (nth_ext _ _ 0 0); [exact Hrank|].
      intros n Hn. apply H. exact Hn.
    + intros H i _. unfold at_. rewrite H. reflexivity.
  - intros p q. unfold Shape_eqb, zMaxShape; simpl.
    apply eq_loop_extents; reflexivity.
Qed.

Lemma SubShape_iter_closed (s : Shape) (k : nat) :
  Nat.iter k SubShape s
  = mkShape (take (zMaxShape s - k) (shape_ s)) (stride_ s).
Proof.
  induction k as [|k IH]; simpl.
  - rewrite Nat.sub_0_r. unfold zMaxShape. rewrite firstn_all.
    destruct s; reflexivity.
  - rewrite IH, SubShape_closed. unfold zMaxShape; simpl.
    rewrite length_take, take_take. f_equal. f_equal. lia.
Qed.

(** C9: for a shape of rank D at least 1, [SubShape()] applied D-1
    times gives the rank-1 shape whose only extent is the original
    extent 0; every step keeps the stride and lowers the rank by one. *)
Theorem SubShape_down_to_rank1 (s : Shape) :
  (1 <= zMaxShape s)%nat ->
  Nat.iter (zMaxShape s - 1) SubShape s = mkShape [at_ s 0] (stride_ s)
  /\ (forall k, stride_ (Nat.iter k SubShape s) = stride_ s)
  /\ (forall k, zMaxShape (Nat.iter k SubShape s) = (zMaxShape s - k)%nat).
Proof.
  intros HD. repeat split.
  - rewrite SubShape_iter_closed. f_equal.
    replace (zMaxShape s - (zMaxShape s - 1))%nat with 1%nat by lia.
    rewrite (shape_split s HD). reflexivity.
  - intros k. rewrite SubShape_iter_closed. reflexivity.
  - intros k. rewrite SubShape_iter_closed. unfold zMaxShape; simpl.
    rewrite length_take. lia.
Qed.

End ShapeClaims.

(** ** Handles: indexing and slicing *)
Section TensorClaims.
Context `{IM : IntModel}.

Lemma at_insert_eq (l : list Z) (i : nat) (x p : Z) :
  (i < length l)%nat -> at_ (mkShape (<[i:=x]> l) p) i = x.
Proof.
  intros Hi. unfold at_; simpl. rewrite nth_lookup.
  rewrite list_lookup_insert_eq by exact Hi. reflexivity.
Qed.

Lemma at_insert_ne (l : list Z) (i j : nat) (x p : Z) :
  i <> j -> at_ (mkShape (<[i:=x]> l) p) j = at_ (mkShape l p) j.
Proof.
  intros Hij. unfold at_; simpl. rewrite !nth_lookup.
  rewrite list_lookup_insert_ne by exact Hij. reflexivity.
Qed.

(** Replacing the outermost extent does not change what [SubShape]
    keeps. *)
Lemma SubShape_insert_last (s : Shape) (x : Z) :
  SubShape (mkShape (<[(zMaxShape s - 1)%nat := x]> (shape_ s)) (stride_ s))
  = SubShape s.
Proof.
  rewrite !SubShape_closed. unfold zMaxShape; simpl.
  rewrite length_insert, take_insert_ge by lia. reflexivity.
Qed.

Lemma Tensor_at_closed (t : Tensor) (idx : Z) :
  Tensor_at t idx
  = mkTensor (ptr_add (dptr t) (MSize (SubShape (shape t)) * idx))
             (SubShape (shape t)).
Proof. unfold Tensor_at. rewrite ptr_add_size_mul. reflexivity. Qed.

Lemma Tensor_Slice_closed (t : Tensor) (b e : Z) :
  Tensor_Slice t b e
  = mkTensor (ptr_add (dptr t) (MSize (SubShape (shape t)) * b))
             (mkShape (<[(dimension t - 1)%nat := index_sub e b]> (shape_ (shape t)))
                      (stride_ (shape t))).
Proof.
  unfold Tensor_Slice, dimension.
  rewrite SubShape_insert_last, ptr_add_size_mul. reflexivity.
Qed.

Lemma Slice_general (t : Tensor) (b e : Z) :
  dimension t <> 1%nat -> Slice t b e = Tensor_Slice t b e.
Proof.
  intros HD. unfold Slice.
  destruct (Nat.eqb_spec (dimension t) 1); [contradiction|reflexivity].
Qed.

Lemma Slice_special (t : Tensor) (b e : Z) :
  dimension t = 1%nat -> Slice t b e = Tensor1_Slice t b e.
Proof. intros HD. unfold Slice. rewrite HD. reflexivity. Qed.

Lemma dimension_Slice (t : Tensor) (b e : Z) :
  dimension (Slice t b e) = dimension t.
Proof.
  unfold Slice. destruct (Nat.eqb_spec (dimension t) 1) as [H1|H1].
  - rewrite H1. reflexivity.
  - unfold Tensor_Slice, dimension, zMaxShape; simpl. apply length_insert.
Qed.

(** C2: for a handle of rank at least 1 whose outermost extent [N] is
    an [index_t] value and for [0 <= b <= e <= N], [Slice(b, e)] has
    outermost extent [e - b], and indexing the slice at any [i] in
    [0, e - b) gives the very element, sub-view or scalar reference, that
    indexing the handle itself at [b + i] gives. *)
Theorem Slice_aliases (t : Tensor) (b e : Z) :
  (1 <= dimension t)%nat ->
  is_index (at_ (shape t) (dimension t - 1)) ->
  0 <= b -> b <= e -> e <= at_ (shape t) (dimension t - 1) ->
  at_ (shape (Slice t b e)) (dimension t - 1) = e - b
  /\ (forall i, 0 <= i < e - b -> index (Slice t b e) i = index t (b + i)).
Proof.
  intros HD [HN0 HN1] Hb Hbe HeN.
  assert (Hsub : index_sub e b = e - b)
    by (apply index_sub_exact; unfold is_index; lia).
  destruct (Nat.eq_dec (dimension t) 1%nat) as [H1|H1].
  - split.
    + rewrite Slice_special, H1 by exact H1. unfold Tensor1_Slice, at_; simpl.
      exact Hsub.
    + intros i Hi. unfold index. rewrite dimension_Slice, H1; simpl.
      rewrite Slice_special by exact H1. unfold Tensor1_at, Tensor1_Slice; simpl.
      rewrite ptr_add_ptr_add. reflexivity.
  - split.
    + rewrite Slice_general, Tensor_Slice_closed by exact H1; simpl.
      rewrite at_insert_eq by (unfold dimension, zMaxShape in *; lia).
      exact Hsub.
    + intros i Hi. unfold index. rewrite dimension_Slice.
      destruct (Nat.eqb_spec (dimension t) 1); [contradiction|].
      rewrite Slice_general by exact H1. f_equal.
      rewrite (Tensor_at_closed t), Tensor_at_closed.
      rewrite Tensor_Slice_closed; simpl.
      unfold dimension. rewrite SubShape_insert_last, ptr_add_ptr_add.
      f_equal. f_equal. lia.
Qed.

(** C3, as amended: for [b <= e] that are [index_t] values,
    [Slice(b, e)] of a handle of rank above 1 keeps the stride and all
    extents but the outermost, which becomes [e - b], and moves the data
    pointer by [SubShape().MSize() * b] scalars; of a handle of rank 1 it
    moves the data pointer by [b] scalars and sets both the extent and
    the stride to [e - b]. *)
Theorem Slice_view (t : Tensor) (b e : Z) :
  is_index b -> is_index e -> b <= e ->
  ((1 < dimension t)%nat ->
     dptr (Slice t b e) = ptr_add (dptr t) (MSize (SubShape (shape t)) * b)
     /\ shape_ (shape (Slice t b e))
        = <[(dimension t - 1)%nat := e - b]> (shape_ (shape t))
     /\ at_ (shape (Slice t b e)) (dimension t - 1) = e - b
     /\ (forall i, i <> (dimension t - 1)%nat ->
           at_ (shape (Slice t b e)) i = at_ (shape t) i)
     /\ stride_ (shape (Slice t b e)) = stride_ (shape t))
  /\ (dimension t = 1%nat ->
     dptr (Slice t b e) = ptr_add (dptr t) b
     /\ shape_ (shape (Slice t b e)) = [e - b]
     /\ stride_ (shape (Slice t b e)) = e - b).
Proof.
  intros Hb He Hbe.
  pose proof (index_sub_exact b e Hb He Hbe) as Hsub. split.
  - intros HD. rewrite Slice_general, Tensor_Slice_closed by lia; simpl.
    rewrite Hsub. repeat split.
    + apply at_insert_eq. unfold dimension, zMaxShape in *. lia.
    + intros i Hi. rewrite at_insert_ne by congruence.
      destruct (shape t); reflexivity.
  - intros H1. rewrite Slice_special by exact H1.
    unfold Tensor1_Slice; simpl. rewrite Hsub. repeat split.
Qed.

(** C4: indexing a handle of rank above 1 gives the sub-view whose
    shape is [SubShape()], of one rank less, with the extents
    0 .. D-2 and the stride of the original, and whose data pointer is
    the original one moved by [SubShape().MSize() * idx] scalars;
    indexing a handle of rank 1 gives a reference to the scalar at
    offset [idx] from its data pointer. *)
Theorem index_view (t : Tensor) (idx : Z) :
  ((1 < dimension t)%nat ->
     index t idx
     = SubTensor (mkTensor (ptr_add (dptr t) (MSize (SubShape (shape t)) * idx))
                           (SubShape (shape t)))
     /\ zMaxShape (SubShape (shape t)) = (dimension t - 1)%nat
     /\ (forall i, (i < dimension t - 1)%nat ->
           at_ (SubShape (shape t)) i = at_ (shape t) i)
     /\ stride_ (SubShape (shape t)) = stride_ (shape t))
  /\ (dimension t = 1%nat -> index t idx = ScalarRef (ptr_add (dptr t) idx)).
Proof.
  split.
  - intros HD. unfold index.
    destruct (Nat.eqb_spec (dimension t) 1); [lia|].
    rewrite Tensor_at_closed. repeat split.
    + apply zMaxShape_SubShape.
    + intros i Hi. apply at_SubShape. exact Hi.
  - intros H1. unfold index. rewrite H1. reflexivity.
Qed.

(** C10: for a handle of rank 1 and [b <= e] that are [index_t]
    values, [Slice(b, e)] moves the data pointer by exactly [b] scalars,
    whatever the stride of the handle, and its shape has the extent and
    the stride both equal to [e - b]; so its [MSize()] equals its
    [Size()], and the stride of the handle is lost unless it was
    [e - b]. *)
Theorem Slice_rank1 (t : Tensor) (b e : Z) :
  dimension t = 1%nat -> is_index b -> is_index e -> b <= e ->
  Slice t b e = mkTensor (ptr_add (dptr t) b) (mkShape [e - b] (e - b))
  /\ (forall p, dptr (Slice (mkTensor (dptr t) (mkShape (shape_ (shape t)) p)) b e)
                = ptr_add (dptr t) b)
  /\ MSize (shape (Slice t b e)) = Size (shape (Slice t b e))
  /\ (stride_ (shape t) <> e - b ->
      stride_ (shape (Slice t b e)) <> stride_ (shape t)).
Proof.
  intros H1 Hb He Hbe.
  pose proof (index_sub_exact b e Hb He Hbe) as Hsub.
  assert (Hs : Slice t b e = mkTensor (ptr_add (dptr t) b) (mkShape [e - b] (e - b))).
  { rewrite Slice_special by exact H1. unfold Tensor1_Slice. rewrite Hsub.
    reflexivity. }
  split; [exact Hs|]. split; [|split].
  - intros p. rewrite Slice_special by exact H1. reflexivity.
  - rewrite Hs; simpl. rewrite MSize_closed, Size_closed.
    unfold at_, upper; simpl. reflexivity.
  - intros Hne. rewrite Hs; simpl. congruence.
Qed.

End TensorClaims.

(** ** Cells of a handle *)
Section Layout.
Context `{IM : IntModel}.

(** The cell at (row, column) lies [stride_ * row + column] scalars
    after the data pointer. *)
Lemma cell_closed (t : Tensor) (y x : Z) :
  cell t y x = ptr_add (dptr t) (stride_ (shape t) * y + x).
Proof.
  unfold cell, at2, Tensor1_at. rewrite Tensor_at_closed; simpl.
  rewrite ptr_add_ptr_add, MSize_closed, SubShape_closed.
  rewrite FlatTo2D_closed; simpl. unfold upper; simpl.
  rewrite Z.mul_1_r, <- !ptr_add_ptr_add, ptr_add_to_size_mul.
  reflexivity.
Qed.

Lemma same_space (t dst : Tensor) :
  shape_ (shape t) = shape_ (shape dst) ->
  height t = height dst /\ width t = width dst.
Proof.
  intros H. unfold height, width, Tensor_FlatTo2D, at_. cbn [shape].
  rewrite !FlatTo2D_closed; simpl. unfold at_, upper. rewrite H.
  split; reflexivity.
Qed.

(** In a well placed handle the cells of the coordinate space are
    reached without wrap-around and lie inside its block. *)
Lemma cell_exact (t : Tensor) (c : Z * Z) :
  well_placed t -> in_space t c ->
  cell_at t c = dptr t + stride_ (shape t) * fst c + snd c
  /\ dptr t <= cell_at t c < block_end t.
Proof.
  intros (Hp & Hw & Hend) [Hy Hx]. unfold cell_at. rewrite cell_closed.
  unfold block_end in *.
  assert (Hrow : stride_ (shape t) * fst c + stride_ (shape t)
                 <= stride_ (shape t) * height t) by nia.
  assert (H0 : 0 <= stride_ (shape t) * fst c) by nia.
  rewrite ptr_add_exact by lia. lia.
Qed.

Lemma in_space_same (t dst : Tensor) (c : Z * Z) :
  shape_ (shape t) = shape_ (shape dst) -> in_space dst c -> in_space t c.
Proof.
  intros H Hc. destruct (same_space t dst H) as [Hh Hw].
  unfold in_space. rewrite Hh, Hw. exact Hc.
Qed.

(** The cells of a well placed handle are pairwise distinct. *)
Lemma cells_distinct (t dst : Tensor) :
  well_placed t -> shape_ (shape t) = shape_ (shape dst) ->
  distinct_cells t dst.
Proof.
  intros Ht Hs [y x] [y' x'] Hc Hc' Heq.
  apply (in_space_same t dst _ Hs) in Hc, Hc'.
  destruct (cell_exact t _ Ht Hc) as [E _].
  destruct (cell_exact t _ Ht Hc') as [E' _].
  rewrite E, E' in Heq. clear E E'.
  destruct Ht as (_ & Hw & _). destruct Hc as [_ Hx], Hc' as [_ Hx'].
  simpl in *.
  assert (y = y') by nia. subst y'.
  assert (x = x') by lia. subst x'. reflexivity.
Qed.

(** Two well placed handles whose blocks do not meet share no cell. *)
Lemma cells_apart (t u dst : Tensor) :
  well_placed t -> well_placed u ->
  shape_ (shape t) = shape_ (shape dst) ->
  shape_ (shape u) = shape_ (shape dst) ->
  block_end t <= dptr u \/ block_end u <= dptr t ->
  apart t u dst.
Proof.
  intros Ht Hu Hst Hsu Hsep c c' Hc Hc' Heq.
  apply (in_space_same t dst _ Hst) in Hc.
  apply (in_space_same u dst _ Hsu) in Hc'.
  destruct (cell_exact t _ Ht Hc) as [_ B].
  destruct (cell_exact u _ Hu Hc') as [_ B'].
  lia.
Qed.

(** Handles that share no cell, and a handle against itself, are free
    of hazards. *)
Lemma apart_no_hazard (src dst : Tensor) :
  apart src dst dst -> no_hazard src dst.
Proof. intros H c c' Hc Hc' Heq. destruct (H c c' Hc Hc' Heq). Qed.

Lemma distinct_no_hazard (dst : Tensor) :
  distinct_cells dst dst -> no_hazard dst dst.
Proof. intros H. exact H. Qed.

(** Arrays allocated one apart from the other, the temporary included,
    meet every condition on aliasing that the fusion theorem asks for. *)
Lemma separate_arrays (dst tmp A B C : Tensor) :
  well_placed dst -> well_placed tmp ->
  well_placed A -> well_placed B -> well_placed C ->
  shape_ (shape tmp) = shape_ (shape dst) ->
  shape_ (shape A) = shape_ (shape dst) ->
  shape_ (shape B) = shape_ (shape dst) ->
  shape_ (shape C) = shape_ (shape dst) ->
  (block_end A <= dptr dst \/ block_end dst <= dptr A) ->
  (block_end B <= dptr dst \/ block_end dst <= dptr B) ->
  (block_end tmp <= dptr A \/ block_end A <= dptr tmp) ->
  (block_end tmp <= dptr B \/ block_end B <= dptr tmp) ->
  (block_end tmp <= dptr C \/ block_end C <= dptr tmp) ->
  (block_end tmp <= dptr dst \/ block_end dst <= dptr tmp) ->
  no_hazard A dst /\ no_hazard B dst /\ distinct_cells tmp dst
  /\ apart tmp A dst /\ apart tmp B dst /\ apart tmp C dst
  /\ apart tmp dst dst.
Proof.
  intros Hd Ht HA HB HC Est EA EB EC SA SB StA StB StC Std.
  repeat split.
  - apply apart_no_hazard, cells_apart; auto.
  - apply apart_no_hazard, cells_apart; auto.
  - apply cells_distinct; assumption.
  - apply cells_apart; assumption.
  - apply cells_apart; assumption.
  - apply cells_apart; assumption.
  - apply cells_apart; auto.
Qed.

End Layout.

(** ** The evaluation engine *)
Section EngineFacts.
Context `{IM : IntModel} {real_t : Type}.
Implicit Types (m : Memory real_t) (p : Plan real_t) (c : Z * Z).

Lemma store_eq m (a : Z) (v : real_t) : store m a v a = v.
Proof. unfold store. rewrite Z.eqb_refl. reflexivity. Qed.

Lemma store_ne m (a b : Z) (v : real_t) : b <> a -> store m a v b = m b.
Proof.
  intros Hne. unfold store. destruct (Z.eqb_spec b a); [contradiction|reflexivity].
Qed.

Lemma elem_of_coords (h w : Z) c :
  c ∈ coords h w <-> (0 <= fst c < h) /\ (0 <= snd c < w).
Proof.
  unfold coords. rewrite list_elem_of_bind. split.
  - intros (y & Hc & Hy). apply list_elem_of_bind in Hc as (x & Hc & Hx).
    apply list_elem_of_singleton in Hc as ->. simpl.
    apply elem_of_seqZ in Hy, Hx. lia.
  - intros [Hy Hx]. exists (fst c). split.
    + apply list_elem_of_bind. exists (snd c). split.
      * destruct c. apply list_elem_of_singleton. reflexivity.
      * apply elem_of_seqZ. lia.
    + apply elem_of_seqZ. lia.
Qed.

Lemma NoDup_coords (h w : Z) : NoDup (coords h w).
Proof.
  unfold coords. apply NoDup_bind.
  - intros y1 y2 c _ _ H1 H2.
    apply list_elem_of_bind in H1 as (x1 & H1 & _).
    apply list_elem_of_bind in H2 as (x2 & H2 & _).
    apply list_elem_of_singleton in H1, H2. congruence.
  - intros y _. apply NoDup_bind.
    + intros x1 x2 c _ _ H1 H2.
      apply list_elem_of_singleton in H1, H2. congruence.
    + intros x _. apply NoDup_singleton.
    + apply NoDup_seqZ.
  - apply NoDup_seqZ.
Qed.

(** A plan is a pure function of the coordinate and of the cells it
    reads. *)
Lemma Eval_reads p m m' (y x : Z) :
  (forall a, a ∈ reads p y x -> m a = m' a) ->
  Eval p m y x = Eval p m' y x.
Proof.
  induction p as [t2|k|f q IH|op l IHl r IHr]; simpl; intros H.
  - apply H. apply list_elem_of_singleton. reflexivity.
  - reflexivity.
  - f_equal. apply IH, H.
  - f_equal.
    + apply IHl. intros a Ha. apply H, elem_of_app. left. exact Ha.
    + apply IHr. intros a Ha. apply H, elem_of_app. right. exact Ha.
Qed.

(** The driver writes to the destination cells of the coordinates it
    visits and to no other address. *)
Lemma run_frame (save : Saver real_t) (d2 : Tensor) p (cs : list (Z * Z)) :
  forall m a,
    (forall c, c ∈ cs -> at2 d2 (fst c) (snd c) <> a) ->
    fold_left (MapCell save d2 p) cs m a = m a.
Proof.
  induction cs as [|c0 cs IH]; intros m a Hout; simpl; [reflexivity|].
  rewrite IH.
  - unfold MapCell. apply store_ne. intros ->.
    apply (Hout c0); [apply list_elem_of_here|reflexivity].
  - intros c Hc. apply Hout. apply list_elem_of_further, Hc.
Qed.

(** When the destination cells of the visited coordinates are pairwise
    distinct and the plan reads, at a coordinate, no destination cell
    of another one, every destination cell ends up with the value that
    the plan has in the initial memory. *)
Lemma run_values (save : Saver real_t) (d2 : Tensor) p (cs : list (Z * Z)) :
  NoDup cs ->
  (forall c c', c ∈ cs -> c' ∈ cs ->
     at2 d2 (fst c) (snd c) = at2 d2 (fst c') (snd c') -> c = c') ->
  (forall c c', c ∈ cs -> c' ∈ cs -> c <> c' ->
     at2 d2 (fst c') (snd c') ∉ reads p (fst c) (snd c)) ->
  forall m c, c ∈ cs ->
    fold_left (MapCell save d2 p) cs m (at2 d2 (fst c) (snd c))
    = save (m (at2 d2 (fst c) (snd c))) (Eval p m (fst c) (snd c)).
Proof.
  induction cs as [|c0 cs IH]; intros Hnd Hinj Hrd m c Hc.
  - apply elem_of_nil in Hc. contradiction.
  - apply NoDup_cons in Hnd as [Hc0 Hnd]. simpl.
    apply elem_of_cons in Hc as [->|Hc].
    + rewrite run_frame.
      * unfold MapCell. apply store_eq.
      * intros c Hc Heq. apply Hc0.
        rewrite <- (Hinj c c0); [exact Hc| |apply list_elem_of_here|exact Heq].
        apply list_elem_of_further, Hc.
    + assert (Hne : c <> c0) by (intros ->; contradiction).
      rewrite IH; [|exact Hnd| | |exact Hc].
      * assert (Hd : at2 d2 (fst c) (snd c) <> at2 d2 (fst c0) (snd c0)).
        { intros Heq. apply Hne, Hinj; [|apply list_elem_of_here|exact Heq].
          apply list_elem_of_further, Hc. }
        unfold MapCell at 1 2. rewrite store_ne by exact Hd. f_equal.
        apply Eval_reads. intros a Ha. unfold MapCell.
        apply store_ne. intros ->.
        apply (Hrd c c0); [|apply list_elem_of_here|exact Hne|exact Ha].
        apply list_elem_of_further, Hc.
      * intros c1 c2 H1 H2. apply Hinj; apply list_elem_of_further; assumption.
      * intros c1 c2 H1 H2. apply Hrd; apply list_elem_of_further; assumption.
Qed.

End EngineFacts.

(** ** Fusion against evaluation with a temporary *)
Section FusionClaims.
Context `{IM : IntModel} {real_t : Type}.
Variables add mul : real_t -> real_t -> real_t.
Implicit Types (m : Memory real_t) (c : Z * Z).

(** The flattened coordinate space depends on the extents alone. *)
Lemma FlatTo2D_same_extents (s s' : Shape) :
  shape_ s = shape_ s' -> shape_ (FlatTo2D s) = shape_ (FlatTo2D s').
Proof.
  intros H. rewrite !FlatTo2D_closed. unfold at_, upper; simpl.
  rewrite H. reflexivity.
Qed.

(** The fused plan and the plan that reads the temporary, run side by
    side over the same coordinates: as long as the temporary holds the
    sum for every coordinate still to come, the two memories stay equal
    outside the temporary. *)
Lemma lockstep (save : Saver real_t) (d2 A2 B2 C2 T2 : Tensor)
    (isT : Z -> Prop) (cs : list (Z * Z)) :
  NoDup cs ->
  (forall c, c ∈ cs -> ~ isT (at2 d2 (fst c) (snd c))) ->
  (forall c, c ∈ cs -> ~ isT (at2 C2 (fst c) (snd c))) ->
  (forall c, c ∈ cs -> isT (at2 T2 (fst c) (snd c))) ->
  (forall c c', c ∈ cs -> c' ∈ cs ->
     at2 A2 (fst c) (snd c) = at2 d2 (fst c') (snd c') -> c = c') ->
  (forall c c', c ∈ cs -> c' ∈ cs ->
     at2 B2 (fst c) (snd c) = at2 d2 (fst c') (snd c') -> c = c') ->
  forall m m',
    (forall a, ~ isT a -> m a = m' a) ->
    (forall c, c ∈ cs ->
       m' (at2 T2 (fst c) (snd c))
       = add (m (at2 A2 (fst c) (snd c))) (m (at2 B2 (fst c) (snd c)))) ->
    forall a, ~ isT a ->
      fold_left
        (MapCell save d2 (PBinary mul (PBinary add (PTensor A2) (PTensor B2)) (PTensor C2)))
        cs m a
      = fold_left (MapCell save d2 (PBinary mul (PTensor T2) (PTensor C2))) cs m' a.
Proof.
  induction cs as [|c0 cs IH];
    intros Hnd Hd HC HT HA HB m m' Hagree Hsum a Ha; simpl.
  - apply Hagree, Ha.
  - apply NoDup_cons in Hnd as [Hc0 Hnd].
    assert (Hin0 : c0 ∈ c0 :: cs) by apply list_elem_of_here.
    assert (Hval : Eval (PBinary mul (PBinary add (PTensor A2) (PTensor B2)) (PTensor C2))
                     m (fst c0) (snd c0)
                   = Eval (PBinary mul (PTensor T2) (PTensor C2)) m' (fst c0) (snd c0)).
    { simpl. rewrite (Hsum c0 Hin0), (Hagree _ (HC c0 Hin0)). reflexivity. }
    apply IH; try exact Hnd; try exact Ha.
    + intros c Hc. apply Hd, list_elem_of_further, Hc.
    + intros c Hc. apply HC, list_elem_of_further, Hc.
    + intros c Hc. apply HT, list_elem_of_further, Hc.
    + intros c c' Hc Hc'. apply HA; apply list_elem_of_further; assumption.
    + intros c c' Hc Hc'. apply HB; apply list_elem_of_further; assumption.
    + intros b Hb. unfold MapCell. rewrite Hval, (Hagree _ (Hd c0 Hin0)).
      unfold store. destruct (Z.eqb b (at2 d2 (fst c0) (snd c0)));
        [reflexivity|apply Hagree, Hb].
    + intros c Hc.
      assert (Hin : c ∈ c0 :: cs) by apply list_elem_of_further, Hc.
      assert (Hne : c <> c0) by (intros ->; contradiction).
      unfold MapCell. rewrite !store_ne.
      * apply Hsum, Hin.
      * intros Heq. apply Hne, (HB c c0 Hin Hin0 Heq).
      * intros Heq. apply Hne, (HA c c0 Hin Hin0 Heq).
      * intros Heq. apply (Hd c0 Hin0). rewrite <- Heq. apply HT, Hin.
Qed.

(** C1, as amended: let [A] and [B] share a cell with [dst] at most at
    one and the same coordinate, and let [tmp] be a buffer of its own,
    with the extents of [dst], its cells pairwise distinct and none of
    them a cell of [A], [B], [C] or [dst].  Then [dst = (A + B) * C],
    evaluated as one fused expression, leaves in every cell of [dst]
    the value that [tmp = A + B] followed by [dst = tmp * C] leaves
    there, and it writes to no address that is not a cell of [dst]. *)
Theorem fusion_equivalence (dst tmp A B C : Tensor) (m : Memory real_t) :
  shape_ (shape tmp) = shape_ (shape dst) ->
  no_hazard A dst -> no_hazard B dst ->
  distinct_cells tmp dst ->
  apart tmp A dst -> apart tmp B dst -> apart tmp C dst -> apart tmp dst dst ->
  (forall c, in_space dst c ->
     fused add mul dst A B C m (cell_at dst c)
     = eager add mul tmp dst A B C m (cell_at dst c))
  /\ (forall a, (forall c, in_space dst c -> a <> cell_at dst c) ->
        fused add mul dst A B C m a = m a).
Proof.
  intros Hshape HA HB Htmp HtA HtB HtC Htd.
  set (h := height dst). set (w := width dst).
  assert (Hspace : forall c, c ∈ coords h w <-> in_space dst c)
    by (intros c; apply elem_of_coords).
  assert (Hcs : coords (at_ (shape (Tensor_FlatTo2D tmp)) 1)
                       (at_ (shape (Tensor_FlatTo2D tmp)) 0) = coords h w).
  { unfold h, w, height, width, Tensor_FlatTo2D, at_. cbn [shape].
    rewrite (FlatTo2D_same_extents _ _ Hshape). reflexivity. }
  split.
  - intros c Hc.
    unfold fused, eager, assign, MapExp, MapPlan. cbn [MakePlan].
    rewrite Hcs. fold (height dst) (width dst). fold h w. unfold cell_at, cell.
    apply (lockstep saveto (Tensor_FlatTo2D dst) (Tensor_FlatTo2D A)
             (Tensor_FlatTo2D B) (Tensor_FlatTo2D C) (Tensor_FlatTo2D tmp)
             (fun a => exists c', in_space dst c' /\ a = cell_at tmp c')).
    + apply NoDup_coords.
    + intros c1 H1 (c2 & H2 & Heq). apply Hspace in H1.
      apply (Htd c2 c1 H2 H1). symmetry. exact Heq.
    + intros c1 H1 (c2 & H2 & Heq). apply Hspace in H1.
      apply (HtC c2 c1 H2 H1). symmetry. exact Heq.
    + intros c1 H1. apply Hspace in H1. exists c1. split; [exact H1|reflexivity].
    + intros c1 c2 H1 H2. apply Hspace in H1, H2. apply HA; assumption.
    + intros c1 c2 H1 H2. apply Hspace in H1, H2. apply HB; assumption.
    + intros a Ha. symmetry. apply run_frame.
      intros c1 H1 Heq. apply Ha. apply Hspace in H1.
      exists c1. split; [exact H1|]. symmetry. exact Heq.
    + intros c1 H1.
      rewrite run_values; [reflexivity|apply NoDup_coords| | |exact H1].
      * intros c2 c3 H2 H3. apply Hspace in H2, H3. apply Htmp; assumption.
      * intros c2 c3 H2 H3 _ Hrd. apply Hspace in H2, H3. simpl in Hrd.
        apply elem_of_cons in Hrd as [Hrd|Hrd].
        -- apply (HtA c3 c2 H3 H2 Hrd).
        -- apply list_elem_of_singleton in Hrd. apply (HtB c3 c2 H3 H2 Hrd).
    + intros (c' & Hc' & Heq). apply (Htd c' c Hc' Hc). symmetry. exact Heq.
  - intros a Ha. unfold fused, assign, MapExp, MapPlan. apply run_frame.
    intros c Hc Heq. apply (Ha c); [|symmetry; exact Heq].
    apply Hspace. exact Hc.
Qed.

End FusionClaims.

(** * The claims on the 64-bit target

    The statements below are closed: they evaluate the embedding on the
    sample shapes and handles, with [index_t] of 32 bits and [size_t] of
    64 bits. *)

(** C5 at a shape whose extents multiply to [2 ^ 64]: [Size()] is 0,
    not the product of the extents. *)
Lemma logical_size_wraps :
  (1 <= zMaxShape huge3)%nat
  /\ Shape_ok (IM := lp64) huge3
  /\ Size (IM := lp64) huge3 = 0
  /\ product (shape_ huge3) = 2 ^ 64
  /\ Size (IM := lp64) huge3 <> product (shape_ huge3).
Proof.
  split; [vm_compute; lia|]. split.
  - split; [repeat constructor|]; unfold is_index; cbn; lia.
  - split; [reflexivity|]. split; [reflexivity|]. vm_compute. discriminate.
Qed.

(** C6 at a padded shape whose allocated size is [2 ^ 64]: [MSize()]
    is 0, neither the padded product nor at least [Size()]. *)
Lemma allocated_size_wraps :
  (1 <= zMaxShape wide3)%nat
  /\ Shape_ok (IM := lp64) wide3
  /\ padded wide3
  /\ MSize (IM := lp64) wide3 = 0
  /\ stride_ wide3 * product (upper wide3) = 2 ^ 64
  /\ Size (IM := lp64) wide3 = 3 * 2 ^ 62
  /\ ~ (MSize (IM := lp64) wide3 >= Size (IM := lp64) wide3).
Proof.
  split; [vm_compute; lia|]. split.
  - split; [repeat constructor|]; unfold is_index; cbn; lia.
  - split; [unfold padded; cbn; lia|].
    split; [reflexivity|]. split; [reflexivity|]. split; [reflexivity|].
    vm_compute. intros H. apply H. reflexivity.
Qed.

(** C7 at a shape with [2 ^ 32] rows: the flat shape has extent 1
    equal to 0, not to the product of the upper extents, and its
    [Size()] is 0 where the original has [2 ^ 32]. *)
Lemma flattened_height_wraps :
  (1 <= zMaxShape tall3)%nat
  /\ Shape_ok (IM := lp64) tall3
  /\ at_ (FlatTo2D (IM := lp64) tall3) 1 = 0
  /\ product (upper tall3) = 2 ^ 32
  /\ Size (IM := lp64) (FlatTo2D (IM := lp64) tall3) = 0
  /\ Size (IM := lp64) tall3 = 2 ^ 32
  /\ at_ (FlatTo2D (IM := lp64) tall3) 1 <> product (upper tall3)
  /\ Size (IM := lp64) (FlatTo2D (IM := lp64) tall3) <> Size (IM := lp64) tall3.
Proof.
  split; [vm_compute; lia|]. split.
  - split; [repeat constructor|]; unfold is_index; cbn; lia.
  - split; [reflexivity|]. split; [reflexivity|]. split; [reflexivity|].
    split; [reflexivity|]. split; vm_compute; discriminate.
Qed.

(** C3 at a rank-1 handle of extent 4 and stride 8: [Slice(1, 3)]
    moves the data pointer by 1 scalar where [SubShape().MSize() * 1]
    is 8, and its stride is 2, not the 8 of the handle. *)
Lemma rank1_slice_departs :
  dimension vec4 = 1%nat
  /\ dptr (Slice (IM := lp64) vec4 1 3) = 1
  /\ ptr_add (IM := lp64) (dptr vec4)
       (MSize (IM := lp64) (SubShape (shape vec4)) * 1) = 8
  /\ stride_ (shape (Slice (IM := lp64) vec4 1 3)) = 2
  /\ stride_ (shape vec4) = 8
  /\ dptr (Slice (IM := lp64) vec4 1 3)
     <> ptr_add (IM := lp64) (dptr vec4)
          (MSize (IM := lp64) (SubShape (shape vec4)) * 1)
  /\ stride_ (shape (Slice (IM := lp64) vec4 1 3)) <> stride_ (shape vec4).
Proof.
  split; [reflexivity|]. split; [reflexivity|]. split; [reflexivity|].
  split; [reflexivity|]. split; [reflexivity|].
  split; vm_compute; discriminate.
Qed.

(** C1 at overlapping windows of one vector: [winA], [winD] and [winB]
    all have extent 2, [winA] lies one cell below the destination
    [winD] and [winB] one cell above it.  The fused evaluation leaves 8
    in the second cell of the destination, the evaluation through a
    temporary leaves 6. *)
Lemma fusion_differs_on_overlap :
  shape_ (shape winA) = shape_ (shape winD)
  /\ shape_ (shape winB) = shape_ (shape winD)
  /\ shape_ (shape (pair_at 8)) = shape_ (shape winD)
  /\ shape_ (shape (pair_at 16)) = shape_ (shape winD)
  /\ in_space (IM := lp64) winD (0, 1)
  /\ fused (IM := lp64) Z.add Z.mul winD winA winB (pair_at 8) mem1234
       (cell_at (IM := lp64) winD (0, 1)) = 8
  /\ eager (IM := lp64) Z.add Z.mul (pair_at 16) winD winA winB (pair_at 8) mem1234
       (cell_at (IM := lp64) winD (0, 1)) = 6.
Proof.
  split; [reflexivity|]. split; [reflexivity|]. split; [reflexivity|].
  split; [reflexivity|]. split.
  - unfold in_space. change (height (IM := lp64) winD) with 1.
    change (width (IM := lp64) winD) with 2. simpl. lia.
  - split; vm_compute; reflexivity.
Qed.

(** ** The theorems at sample inputs *)

(** Closed comparisons of integers, by evaluation. *)
Ltac by_evaluation :=
  vm_compute; repeat split; first [discriminate | reflexivity | lia].

Lemma Size_product_mod_witness :
  (1 <= zMaxShape small3)%nat
  /\ Size (IM := lp64) small3 = 30
  /\ Size (IM := lp64) (mkShape (shape_ small3) 5) = Size (IM := lp64) small3.
Proof.
  assert (HD : (1 <= zMaxShape small3)%nat) by (vm_compute; lia).
  destruct (Size_product_mod (IM := lp64) small3 5 HD) as (_ & Hfit & Hpad).
  split; [exact HD|]. split; [|exact Hpad].
  apply Hfit. by_evaluation.
Defined.

Lemma small3_ok : Shape_ok (IM := lp64) small3.
Proof. split; [repeat constructor|]; unfold is_index; simpl; lia. Defined.

Lemma MSize_padded_product_witness :
  (1 <= zMaxShape small3)%nat
  /\ Shape_ok (IM := lp64) small3
  /\ padded small3
  /\ MSize (IM := lp64) small3 = 48
  /\ Size (IM := lp64) small3 <= MSize (IM := lp64) small3.
Proof.
  assert (HD : (1 <= zMaxShape small3)%nat) by (vm_compute; lia).
  assert (Hpad : padded small3) by by_evaluation.
  destruct (MSize_padded_product (IM := lp64) small3 HD small3_ok Hpad)
    as (_ & Hfit).
  assert (Hlt : stride_ small3 * product (upper small3) < 2 ^ @size_bits lp64)
    by by_evaluation.
  destruct (Hfit Hlt) as [Hm Hle].
  split; [exact HD|]. split; [exact small3_ok|]. split; [exact Hpad|].
  split; [exact Hm|exact Hle].
Defined.

Lemma FlatTo2D_extents_witness :
  (1 <= zMaxShape small3)%nat
  /\ FlatTo2D (IM := lp64) small3 = mkShape [5; 6] 8
  /\ Size (IM := lp64) (FlatTo2D (IM := lp64) small3) = Size (IM := lp64) small3.
Proof.
  assert (HD : (1 <= zMaxShape small3)%nat) by (vm_compute; lia).
  destruct (FlatTo2D_extents (IM := lp64) small3 HD)
    as (_ & _ & _ & _ & Hfit & _).
  assert (Hlt : 0 <= product (upper small3) < 2 ^ @index_bits lp64)
    by by_evaluation.
  destruct (Hfit Hlt) as [_ Hsz].
  split; [exact HD|]. split; [reflexivity|exact Hsz].
Defined.

Lemma Shape_eqb_extents_witness :
  zMaxShape small3 = zMaxShape (mkShape [5; 3; 2] 5)
  /\ Shape_eqb small3 (mkShape [5; 3; 2] 5) = true.
Proof.
  assert (HD : zMaxShape small3 = zMaxShape (mkShape [5; 3; 2] 5))
    by reflexivity.
  destruct (Shape_eqb_extents small3 (mkShape [5; 3; 2] 5) HD)
    as (_ & [_ Heq] & _).
  split; [exact HD|]. apply Heq. reflexivity.
Defined.

Lemma SubShape_down_to_rank1_witness :
  (1 <= zMaxShape small3)%nat
  /\ SubShape (SubShape small3) = mkShape [5] 8.
Proof.
  assert (HD : (1 <= zMaxShape small3)%nat) by (vm_compute; lia).
  destruct (SubShape_down_to_rank1 small3 HD) as (Hit & _ & _).
  split; [exact HD|exact Hit].
Defined.

Lemma Slice_aliases_witness :
  (1 <= dimension cube)%nat
  /\ is_index (IM := lp64) (at_ (shape cube) (dimension cube - 1))
  /\ at_ (shape (Slice (IM := lp64) cube 1 3)) 2 = 2
  /\ index (IM := lp64) (Slice (IM := lp64) cube 1 3) 1
     = index (IM := lp64) cube 2.
Proof.
  assert (HD : (1 <= dimension cube)%nat) by (vm_compute; lia).
  assert (HN : is_index (IM := lp64) (at_ (shape cube) (dimension cube - 1)))
    by by_evaluation.
  assert (Hb : 0 <= 1) by lia.
  assert (Hbe : 1 <= 3) by lia.
  assert (He : 3 <= at_ (shape cube) (dimension cube - 1)) by by_evaluation.
  destruct (Slice_aliases (IM := lp64) cube 1 3 HD HN Hb Hbe He) as [Hext Hal].
  split; [exact HD|]. split; [exact HN|]. split; [exact Hext|].
  apply (Hal 1). lia.
Defined.

Lemma Slice_view_witness :
  is_index (IM := lp64) 1 /\ is_index (IM := lp64) 3
  /\ dptr (Slice (IM := lp64) cube 1 3) = 124
  /\ shape (Slice (IM := lp64) cube 1 3) = mkShape [5; 3; 2] 8
  /\ shape_ (shape (Slice (IM := lp64) vec4 1 3)) = [2].
Proof.
  assert (H1 : is_index (IM := lp64) 1) by by_evaluation.
  assert (H3 : is_index (IM := lp64) 3) by by_evaluation.
  assert (Hle : 1 <= 3) by lia.
  destruct (Slice_view (IM := lp64) cube 1 3 H1 H3 Hle) as [Hgen _].
  destruct (Slice_view (IM := lp64) vec4 1 3 H1 H3 Hle) as [_ Hone].
  assert (HD : (1 < dimension cube)%nat) by (vm_compute; lia).
  destruct (Hgen HD) as (Hp & Hs & _ & _ & Hst).
  destruct (Hone eq_refl) as (_ & Hs1 & _).
  split; [exact H1|]. split; [exact H3|]. split; [exact Hp|].
  split; [|exact Hs1].
  destruct (shape (Slice (IM := lp64) cube 1 3)) as [l p]; simpl in *.
  rewrite Hs, Hst. reflexivity.
Defined.

Lemma index_view_witness :
  (1 < dimension cube)%nat
  /\ index (IM := lp64) cube 2 = SubTensor (mkTensor 148 (mkShape [5; 3] 8))
  /\ index (IM := lp64) vec4 2 = ScalarRef 2.
Proof.
  assert (HD : (1 < dimension cube)%nat) by (vm_compute; lia).
  destruct (index_view (IM := lp64) cube 2) as [Hgen _].
  destruct (index_view (IM := lp64) vec4 2) as [_ Hone].
  destruct (Hgen HD) as (Hi & _).
  split; [exact HD|]. split; [exact Hi|]. exact (Hone eq_refl).
Defined.

Lemma Slice_rank1_witness :
  dimension vec4 = 1%nat
  /\ is_index (IM := lp64) 1 /\ is_index (IM := lp64) 3
  /\ Slice (IM := lp64) vec4 1 3 = mkTensor 1 (mkShape [2] 2)
  /\ stride_ (shape (Slice (IM := lp64) vec4 1 3)) <> stride_ (shape vec4).
Proof.
  assert (H1 : is_index (IM := lp64) 1) by by_evaluation.
  assert (H3 : is_index (IM := lp64) 3) by by_evaluation.
  assert (Hle : 1 <= 3) by lia.
  destruct (Slice_rank1 (IM := lp64) vec4 1 3 eq_refl H1 H3 Hle)
    as (Hs & _ & _ & Hne).
  split; [reflexivity|]. split; [exact H1|]. split; [exact H3|].
  split; [exact Hs|]. apply Hne. by_evaluation.
Defined.

Lemma in_space_pair (p : Z) (c : Z * Z) :
  in_space (IM := lp64) (pair_at p) c -> c = (0, 0) \/ c = (0, 1).
Proof.
  destruct c as [y x]. unfold in_space.
  change (height (IM := lp64) (pair_at p)) with 1.
  change (width (IM := lp64) (pair_at p)) with 2. simpl. intros [Hy Hx].
  assert (y = 0) as -> by lia.
  assert (x = 0 \/ x = 1) as [-> | ->] by lia; [left|right]; reflexivity.
Defined.

(** Closed statements about the cells of two-scalar vectors. *)
Ltac pair_cells :=
  let c := fresh "c" in
  let c' := fresh "c" in
  let Hc := fresh "Hc" in
  let Hc' := fresh "Hc" in
  intros c c' Hc Hc';
  apply in_space_pair in Hc; apply in_space_pair in Hc';
  destruct Hc as [-> | ->]; destruct Hc' as [-> | ->];
  vm_compute; intros; first [reflexivity | discriminate].

(** In place: the destination is [A] itself. *)
Lemma fusion_equivalence_witness :
  no_hazard (IM := lp64) (pair_at 0) (pair_at 0)
  /\ no_hazard (IM := lp64) (pair_at 2) (pair_at 0)
  /\ fused (IM := lp64) Z.add Z.mul (pair_at 0) (pair_at 0) (pair_at 2) (pair_at 8)
       mem1234 (cell_at (IM := lp64) (pair_at 0) (0, 1))
     = eager (IM := lp64) Z.add Z.mul (pair_at 16) (pair_at 0) (pair_at 0) (pair_at 2)
         (pair_at 8) mem1234 (cell_at (IM := lp64) (pair_at 0) (0, 1))
  /\ fused (IM := lp64) Z.add Z.mul (pair_at 0) (pair_at 0) (pair_at 2) (pair_at 8)
       mem1234 20 = mem1234 20.
Proof.
  assert (HA : no_hazard (IM := lp64) (pair_at 0) (pair_at 0)) by pair_cells.
  assert (HB : no_hazard (IM := lp64) (pair_at 2) (pair_at 0)) by pair_cells.
  assert (HT : distinct_cells (IM := lp64) (pair_at 16) (pair_at 0)) by pair_cells.
  assert (HtA : apart (IM := lp64) (pair_at 16) (pair_at 0) (pair_at 0)) by pair_cells.
  assert (HtB : apart (IM := lp64) (pair_at 16) (pair_at 2) (pair_at 0)) by pair_cells.
  assert (HtC : apart (IM := lp64) (pair_at 16) (pair_at 8) (pair_at 0)) by pair_cells.
  destruct (fusion_equivalence (IM := lp64) Z.add Z.mul
              (pair_at 0) (pair_at 16) (pair_at 0) (pair_at 2) (pair_at 8)
              mem1234 eq_refl HA HB HT HtA HtB HtC HtA) as [Hsame Hframe].
  split; [exact HA|]. split; [exact HB|]. split.
  - apply Hsame. unfold in_space.
    change (height (IM := lp64) (pair_at 0)) with 1.
    change (width (IM := lp64) (pair_at 0)) with 2. simpl. lia.
  - apply Hframe. intros c Hc. apply in_space_pair in Hc.
    destruct Hc as [-> | ->]; vm_compute; discriminate.
Defined.

(** * Further properties of the shapes *)
Section ShapeMore.
Context `{IM : IntModel}.

Lemma product_app (a b : list Z) : product (a ++ b) = product a * product b.
Proof.
  induction a as [|x a IH]; simpl.
  - destruct (product b); reflexivity.
  - rewrite IH. lia.
Qed.

Lemma product_zero (l : list Z) : In 0 l -> product l = 0.
Proof.
  induction l as [|x l IH]; simpl; [contradiction|].
  intros [->|H]; [reflexivity|]. rewrite IH by exact H. lia.
Qed.

Lemma upper_SubShape (s : Shape) :
  upper (SubShape s) = take (zMaxShape s - 2) (upper s).
Proof.
  rewrite SubShape_closed. unfold upper, zMaxShape; simpl.
  destruct (shape_ s) as [|x [|y l]]; simpl; try reflexivity.
  rewrite Nat.sub_0_r. reflexivity.
Qed.

(** From rank 2 on, the upper extents are those of the sub-shape
    followed by the outermost one. *)
Lemma upper_split (s : Shape) :
  (2 <= zMaxShape s)%nat ->
  upper s = upper (SubShape s) ++ [outer s].
Proof.
  intros HD. rewrite upper_SubShape. unfold outer, upper, at_, zMaxShape in *.
  destruct (shape_ s) as [|x l]; simpl in *; [lia|].
  rewrite Nat.sub_0_r.
  assert (Hl : (1 <= length l)%nat) by lia. clear HD.
  replace (length l - 1)%nat with (pred (length l)) by lia.
  destruct l as [|y l]; simpl in *; [lia|].
  clear Hl. revert y. induction l as [|z l IH]; intros y; simpl.
  - reflexivity.
  - f_equal. apply IH.
Qed.

Lemma at_SubShape_0 (s : Shape) :
  (2 <= zMaxShape s)%nat -> at_ (SubShape s) 0 = at_ s 0.
Proof. intros HD. apply at_SubShape. lia. Qed.

Lemma MSize_step (s : Shape) :
  (2 <= zMaxShape s)%nat ->
  MSize s = to_size (MSize (SubShape s) * outer s).
Proof.
  intros HD. rewrite !MSize_closed, (upper_split s HD), product_app.
  simpl. unfold to_size. rewrite wrap_mul_l. f_equal. lia.
Qed.

Lemma Size_step (s : Shape) :
  (2 <= zMaxShape s)%nat ->
  Size s = to_size (Size (SubShape s) * outer s).
Proof.
  intros HD. rewrite !Size_closed, (at_SubShape_0 s HD).
  rewrite (upper_split s HD) at 1. rewrite product_app.
  simpl. unfold to_size. rewrite wrap_mul_l. f_equal. lia.
Qed.

Lemma to_size_mul_r (a b : Z) : to_size (a * to_size b) = to_size (a * b).
Proof. unfold to_size. apply wrap_mul_r. Qed.

(** X1: from rank 2 on, [MSize()] is the [size_t] product of the
    [MSize()] of [SubShape()] and the outermost extent, and [Size()] is
    the [size_t] product of the [Size()] of [SubShape()] and the
    outermost extent: a handle is as large as its outermost extent many
    sub-views. *)
Theorem sizes_by_outermost (s : Shape) :
  (2 <= zMaxShape s)%nat ->
  MSize s = size_mul (MSize (SubShape s)) (to_size (outer s))
  /\ Size s = size_mul (Size (SubShape s)) (to_size (outer s)).
Proof.
  intros HD. unfold size_mul. rewrite !to_size_mul_r. split.
  - apply MSize_step, HD.
  - apply Size_step, HD.
Qed.

Lemma wrap_wrap (w x : Z) : wrap w (wrap w x) = wrap w x.
Proof. unfold wrap. apply Z.mod_mod_divide. exists 1. lia. Qed.

(** X2: flattening is idempotent, and it leaves a rank-2 shape of
    [index_t] values as it is. *)
Theorem FlatTo2D_idempotent (s : Shape) :
  FlatTo2D (FlatTo2D s) = FlatTo2D s
  /\ (zMaxShape s = 2%nat -> is_index (at_ s 1) -> FlatTo2D s = s).
Proof.
  split.
  - rewrite (FlatTo2D_closed (FlatTo2D s)), (FlatTo2D_closed s).
    unfold at_, upper; simpl. rewrite Z.mul_1_r.
    unfold to_index. rewrite wrap_wrap. reflexivity.
  - intros H2 Hidx. rewrite FlatTo2D_closed.
    unfold at_, upper, zMaxShape in *.
    destruct s as [[|x [|y [|z l]]] p]; simpl in *; try discriminate.
    rewrite Z.mul_1_r, is_index_to_index by exact Hidx. reflexivity.
Qed.

(** X3: the copy constructor yields the shape it copies, extents and
    stride; the copy compares equal to the original. *)
Theorem Shape_copy_same (s : Shape) :
  Shape_copy s = s /\ Shape_eqb (Shape_copy s) s = true.
Proof.
  assert (H : Shape_copy s = s).
  { unfold Shape_copy, zMaxShape, at_. rewrite map_nth_seq.
    destruct s; reflexivity. }
  split; [exact H|]. rewrite H. unfold Shape_eqb.
  apply eq_loop_spec. intros k _. reflexivity.
Qed.

Lemma Shape_eqb_pointwise (a b : Shape) :
  Shape_eqb a b = true
  <-> (forall i, (i < zMaxShape a)%nat -> at_ a i = at_ b i).
Proof.
  unfold Shape_eqb. rewrite eq_loop_spec.
  split; intros H i Hi; apply H; lia.
Qed.

(** X4: [operator==] is reflexive, and among shapes of one rank it is
    symmetric and transitive. *)
Theorem Shape_eqb_equivalence :
  (forall s, Shape_eqb s s = true)
  /\ (forall a b, zMaxShape a = zMaxShape b ->
        Shape_eqb a b = Shape_eqb b a)
  /\ (forall a b c, zMaxShape a = zMaxShape b ->
        Shape_eqb a b = true -> Shape_eqb b c = true ->
        Shape_eqb a c = true).
Proof.
  split; [|split].
  - intros s. apply Shape_eqb_pointwise. reflexivity.
  - intros a b Hr.
    destruct (Shape_eqb a b) eqn:Hab, (Shape_eqb b a) eqn:Hba;
      try reflexivity.
    + rewrite <- Hba. symmetry. apply Shape_eqb_pointwise.
      intros i Hi. symmetry.
      apply (proj1 (Shape_eqb_pointwise a b) Hab). lia.
    + rewrite <- Hab. apply Shape_eqb_pointwise.
      intros i Hi. symmetry.
      apply (proj1 (Shape_eqb_pointwise b a) Hba). lia.
  - intros a b c Hr Hab Hbc. apply Shape_eqb_pointwise. intros i Hi.
    rewrite (proj1 (Shape_eqb_pointwise a b) Hab i Hi).
    apply (proj1 (Shape_eqb_pointwise b c) Hbc). lia.
Qed.

(** X5: a shape of rank at least 1 with an extent equal to 0 has
    [Size()] 0, and [MSize()] 0 when that extent is not the lowest one. *)
Theorem Size_of_empty (s : Shape) :
  (1 <= zMaxShape s)%nat ->
  (In 0 (shape_ s) -> Size s = 0)
  /\ (In 0 (upper s) -> MSize s = 0).
Proof.
  intros HD. split; intros H0.
  - rewrite Size_closed.
    replace (at_ s 0 * product (upper s)) with (product (shape_ s))
      by (rewrite (shape_split s HD) at 1; reflexivity).
    rewrite product_zero by exact H0. reflexivity.
  - rewrite MSize_closed, product_zero by exact H0.
    rewrite Z.mul_0_r. reflexivity.
Qed.

(** X6: the builders store the extents lowest first.  For [index_t]
    arguments, [Shape1(s0).Size()] is [s0], and where [size_t] is at
    least twice as wide as [index_t], [Shape2(s1, s0).Size()] is
    [s1 * s0]: at rank 1 and 2 the size does not wrap. *)
Theorem Size_of_built (u s1 s0 : Z) :
  is_index s0 -> is_index s1 ->
  Size (Shape1 u s0) = s0
  /\ (2 * index_bits <= size_bits -> Size (Shape2 u s1 s0) = s1 * s0).
Proof.
  intros H0 H1. rewrite !Size_closed. unfold at_, upper; simpl. split.
  - rewrite Z.mul_1_r. apply is_index_to_size, H0.
  - intros Hw. rewrite Z.mul_1_r. unfold to_size.
    rewrite wrap_small; [lia|].
    destruct H0 as [H0 H0'], H1 as [H1 H1'].
    assert (Hp : 2 ^ index_bits * 2 ^ index_bits <= 2 ^ size_bits).
    { rewrite <- Z.pow_add_r by (pose proof index_bits_range; lia).
      apply Z.pow_le_mono_r; lia. }
    nia.
Qed.

(** X7: [SubShape()] of a built shape is the shape built from all the
    arguments but the first, and [FlatTo2D()] of [Shape3(s2, s1, s0)] is
    the rank-2 shape of height [s2 * s1] and width [s0] whenever the
    height fits in [index_t]; the stride is carried along. *)
Theorem built_shapes_compose (u s3 s2 s1 s0 : Z) :
  SubShape (Shape4 u s3 s2 s1 s0) = Shape3 u s2 s1 s0
  /\ SubShape (Shape3 u s2 s1 s0) = Shape2 u s1 s0
  /\ SubShape (Shape2 u s1 s0) = Shape1 u s0
  /\ (0 <= s2 * s1 < 2 ^ index_bits ->
      FlatTo2D (Shape3 u s2 s1 s0) = Shape2 u (s2 * s1) s0).
Proof.
  split; [reflexivity|]. split; [reflexivity|]. split; [reflexivity|].
  intros Hfit. rewrite FlatTo2D_closed. unfold at_, upper, Shape2; simpl.
  unfold to_index. rewrite wrap_small by lia.
  f_equal. f_equal. f_equal. lia.
Qed.

End ShapeMore.

(** * Further properties of the handles *)
Section SubscriptFacts.
Context `{IM : IntModel}.

Lemma flat_row_take (es ups : list Z) (n : nat) :
  (length ups <= n)%nat -> flat_row (take n es) ups = flat_row es ups.
Proof.
  induction ups as [|i rest IH]; simpl; intros Hn; [reflexivity|].
  rewrite take_take, IH by lia.
  replace (length rest `min` n)%nat with (length rest) by lia.
  reflexivity.
Qed.

Lemma index_general (t : Tensor) (i : Z) :
  dimension t <> 1%nat -> index t i = SubTensor (Tensor_at t i).
Proof.
  intros HD. unfold index.
  destruct (Nat.eqb_spec (dimension t) 1); [contradiction|reflexivity].
Qed.

Lemma index_special (t : Tensor) (i : Z) :
  dimension t = 1%nat -> index t i = ScalarRef (Tensor1_at t i).
Proof. intros HD. unfold index. rewrite HD. reflexivity. Qed.

Lemma dimension_Tensor_at (t : Tensor) (i : Z) :
  dimension (Tensor_at t i) = (dimension t - 1)%nat.
Proof. unfold Tensor_at, dimension; simpl. apply zMaxShape_SubShape. Qed.

(** The scalar that a full list of subscripts reaches lies
    [stride_ * row + column] scalars after the data pointer, the row
    being the row-major rank of the upper subscripts. *)
Lemma subscript_offset (ups : list Z) :
  forall (t : Tensor) (x : Z),
    dimension t = S (length ups) ->
    subscript t (ups ++ [x])
    = Some (ScalarRef
              (ptr_add (dptr t)
                 (stride_ (shape t) * flat_row (upper (shape t)) ups + x))).
Proof.
  induction ups as [|i rest IH]; intros t x HD; simpl.
  - rewrite index_special by exact HD. unfold Tensor1_at.
    do 3 f_equal. lia.
  - simpl in HD. rewrite index_general by lia.
    rewrite IH by (rewrite dimension_Tensor_at; lia).
    rewrite Tensor_at_closed; simpl.
    rewrite ptr_add_ptr_add, MSize_closed, upper_SubShape.
    replace (zMaxShape (shape t) - 2)%nat with (length rest)
      by (unfold dimension in HD; lia).
    rewrite flat_row_take by lia.
    cbn [stride_ SubShape].
    rewrite <- !ptr_add_ptr_add, ptr_add_to_size_mul, !ptr_add_ptr_add.
    do 3 f_equal. lia.
Qed.

(** X8: in a handle of rank D at least 1, the scalar that the D
    subscripts [t[i_{D-1}]...[i_1][x]] reach is the one at column [x] of
    the row of [t.FlatTo2D()] whose number is the row-major rank of the
    upper subscripts, as long as the subscripts and that row number are
    [index_t] values: flattening keeps every element in its cell. *)
Theorem subscript_in_flat_view (t : Tensor) (ups : list Z) (x : Z) :
  dimension t = S (length ups) ->
  Forall is_index (ups ++ [x]) ->
  is_index (flat_row (upper (shape t)) ups) ->
  subscript t (ups ++ [x])
  = Some (ScalarRef (cell t (flat_row (upper (shape t)) ups) x)).
Proof.
  intros HD _ _. rewrite cell_closed. apply subscript_offset, HD.
Qed.

End SubscriptFacts.

Section SliceFacts.
Context `{IM : IntModel}.

Lemma ptr_add_to_size (p n : Z) : ptr_add p (to_size n) = ptr_add p n.
Proof.
  unfold ptr_add, to_ptr, to_size.
  rewrite <- wrap_add_r, wrap_narrow by apply ptr_bits_range.
  apply wrap_add_r.
Qed.

Lemma outer_Tensor_Slice (t : Tensor) (b e : Z) :
  (1 <= dimension t)%nat ->
  outer (shape (Tensor_Slice t b e)) = index_sub e b.
Proof.
  intros HD. unfold outer, Tensor_Slice, zMaxShape; simpl.
  rewrite length_insert. apply at_insert_eq.
  unfold dimension, zMaxShape in *. lia.
Qed.

Lemma SubShape_Tensor_Slice (t : Tensor) (b e : Z) :
  SubShape (shape (Tensor_Slice t b e)) = SubShape (shape t).
Proof. unfold Tensor_Slice, dimension; simpl. apply SubShape_insert_last. Qed.

(** X9: slicing a slice is slicing once: for [index_t] bounds with
    [b <= e], [b' <= e'] and [b + e'] still an [index_t] value,
    [t.Slice(b, e).Slice(b', e')] is [t.Slice(b + b', b + e')]. *)
Theorem Slice_of_Slice (t : Tensor) (b e b' e' : Z) :
  is_index b -> is_index e -> is_index b' -> is_index e' ->
  b <= e -> b' <= e' -> is_index (b + e') ->
  Slice (Slice t b e) b' e' = Slice t (b + b') (b + e').
Proof.
  intros Hb He Hb' He' Hbe Hbe' Hsum.
  assert (Hbb : is_index (b + b')) by (unfold is_index in *; lia).
  assert (H1 : index_sub e b = e - b) by (apply index_sub_exact; assumption).
  assert (H2 : index_sub e' b' = e' - b') by (apply index_sub_exact; assumption).
  assert (H3 : index_sub (b + e') (b + b') = e' - b').
  { rewrite index_sub_exact by (try assumption; lia). lia. }
  destruct (Nat.eq_dec (dimension t) 1%nat) as [HD|HD].
  - rewrite (Slice_special t) by exact HD.
    rewrite (Slice_special t) by exact HD.
    rewrite Slice_special by reflexivity.
    unfold Tensor1_Slice; simpl. rewrite H2, H3, ptr_add_ptr_add. reflexivity.
  - rewrite (Slice_general t) by exact HD.
    rewrite (Slice_general t) by exact HD.
    assert (HD' : dimension (Tensor_Slice t b e) = dimension t).
    { rewrite <- (Slice_general t b e HD). apply dimension_Slice. }
    rewrite Slice_general by (rewrite HD'; exact HD).
    rewrite (Tensor_Slice_closed (Tensor_Slice t b e)), HD'.
    rewrite SubShape_Tensor_Slice, (Tensor_Slice_closed t (b + b')).
    rewrite Tensor_Slice_closed; simpl.
    rewrite ptr_add_ptr_add, H2, H3, list_insert_insert_eq.
    do 2 f_equal. lia.
Qed.

Lemma at_lookup (s : Shape) (i : nat) :
  (i < zMaxShape s)%nat -> shape_ s !! i = Some (at_ s i).
Proof.
  intros Hi. unfold at_.
  destruct (nth_lookup_or_length (shape_ s) i 0) as [H|H]; [exact H|].
  unfold zMaxShape in Hi. lia.
Qed.

(** X10: for a valid data pointer and the outermost extent [N], an
    [index_t] value, [t.Slice(0, N)] of a handle of rank above 1 is the
    handle itself; of a handle of rank 1 it has the same data pointer
    and extent, and the stride [N]. *)
Theorem Slice_whole (t : Tensor) :
  0 <= dptr t < 2 ^ ptr_bits ->
  is_index (outer (shape t)) ->
  ((1 < dimension t)%nat -> Slice t 0 (outer (shape t)) = t)
  /\ (dimension t = 1%nat ->
      Slice t 0 (outer (shape t))
      = mkTensor (dptr t) (mkShape (shape_ (shape t)) (outer (shape t)))).
Proof.
  intros Hp HN.
  assert (H0 : is_index 0) by (unfold is_index in *; lia).
  assert (Hsub : index_sub (outer (shape t)) 0 = outer (shape t)).
  { rewrite index_sub_exact by (try assumption; unfold is_index in HN; lia). lia. }
  split; intros HD.
  - rewrite Slice_general, Tensor_Slice_closed by lia.
    rewrite Hsub, Z.mul_0_r.
    unfold ptr_add, to_ptr. rewrite Z.add_0_r, wrap_small by exact Hp.
    rewrite list_insert_id.
    + destruct t as [p [l st]]; reflexivity.
    + apply (at_lookup (shape t)). unfold dimension in *. lia.
  - rewrite Slice_special by exact HD. unfold Tensor1_Slice.
    rewrite Hsub. unfold ptr_add, to_ptr.
    rewrite Z.add_0_r, wrap_small by exact Hp.
    do 2 f_equal. unfold outer, at_, dimension, zMaxShape in *.
    destruct (shape_ (shape t)) as [|x [|y l]]; simpl in *; try lia.
    reflexivity.
Qed.

Lemma MSize_Tensor_Slice (t : Tensor) (b e : Z) :
  (2 <= dimension t)%nat ->
  MSize (shape (Tensor_Slice t b e))
  = to_size (MSize (SubShape (shape t)) * index_sub e b).
Proof.
  intros HD. rewrite MSize_step.
  - rewrite SubShape_Tensor_Slice, outer_Tensor_Slice by lia. reflexivity.
  - unfold Tensor_Slice, zMaxShape; simpl. rewrite length_insert.
    exact HD.
Qed.

(** X11: consecutive slices lie end to end: for [index_t] bounds
    [a <= b <= c] and a handle of rank at least 1, [t.Slice(b, c)] starts
    [MSize()] of [t.Slice(a, b)] scalars after the start of
    [t.Slice(a, b)]. *)
Theorem Slices_adjacent (t : Tensor) (a b c : Z) :
  (1 <= dimension t)%nat ->
  is_index a -> is_index b -> is_index c -> a <= b -> b <= c ->
  dptr (Slice t b c)
  = ptr_add (dptr (Slice t a b)) (MSize (shape (Slice t a b))).
Proof.
  intros HD Ha Hb Hc Hab Hbc.
  assert (H1 : index_sub b a = b - a) by (apply index_sub_exact; assumption).
  destruct (Nat.eq_dec (dimension t) 1%nat) as [H|H].
  - rewrite !Slice_special by exact H. unfold Tensor1_Slice; simpl.
    rewrite MSize_closed. unfold upper; simpl.
    rewrite H1, Z.mul_1_r, ptr_add_to_size, ptr_add_ptr_add.
    f_equal. lia.
  - rewrite !Slice_general by exact H.
    rewrite MSize_Tensor_Slice by lia.
    rewrite !Tensor_Slice_closed; simpl.
    rewrite H1, ptr_add_to_size, ptr_add_ptr_add. f_equal. lia.
Qed.

(** X12: an empty slice, [t.Slice(b, b)] of a handle of rank at least
    1, has outermost extent 0, [Size()] 0 and [MSize()] 0. *)
Theorem Slice_empty (t : Tensor) (b : Z) :
  (1 <= dimension t)%nat -> is_index b ->
  outer (shape (Slice t b b)) = 0
  /\ Size (shape (Slice t b b)) = 0
  /\ MSize (shape (Slice t b b)) = 0.
Proof.
  intros HD Hb.
  assert (H0 : index_sub b b = 0).
  { rewrite index_sub_exact by (try assumption; lia). lia. }
  destruct (Nat.eq_dec (dimension t) 1%nat) as [H|H].
  - rewrite Slice_special by exact H. unfold Tensor1_Slice.
    rewrite H0, Size_closed, MSize_closed. repeat split.
  - rewrite Slice_general by exact H.
    assert (Hout : outer (shape (Tensor_Slice t b b)) = 0)
      by (rewrite outer_Tensor_Slice by exact HD; exact H0).
    assert (H2 : (2 <= zMaxShape (shape (Tensor_Slice t b b)))%nat).
    { unfold Tensor_Slice, dimension, zMaxShape in H, HD |- *; simpl.
      rewrite length_insert. lia. }
    split; [exact Hout|].
    rewrite Size_step, MSize_step by exact H2.
    rewrite Hout, !Z.mul_0_r. split; reflexivity.
Qed.

End SliceFacts.

(** * Handles on allocated memory *)
Section BlockFacts.
Context `{IM : IntModel}.

Lemma product_index_nonneg (l : list Z) : Forall is_index l -> 0 <= product l.
Proof.
  intros H. apply product_nonneg. eapply Forall_impl; [exact H|].
  intros x [Hx _]. exact Hx.
Qed.

Lemma Shape_ok_SubShape (s : Shape) : Shape_ok s -> Shape_ok (SubShape s).
Proof.
  intros [He Hs]. rewrite SubShape_closed. split; [|exact Hs]. simpl.
  apply Forall_take, He.
Qed.

Lemma Shape_ok_upper (s : Shape) : Shape_ok s -> Forall is_index (upper s).
Proof.
  intros [He _]. unfold upper. destruct (shape_ s); simpl; [constructor|].
  apply Forall_cons in He as [_ He]. exact He.
Qed.

Lemma Shape_ok_outer (s : Shape) :
  (1 <= zMaxShape s)%nat -> Shape_ok s -> is_index (outer s).
Proof.
  intros HD [He _]. unfold outer.
  eapply Forall_lookup_1; [exact He|]. apply at_lookup. lia.
Qed.

Lemma ptr_le_size_pow : 2 ^ ptr_bits <= 2 ^ size_bits.
Proof. apply pow2_mono, ptr_bits_range. Qed.

(** The block of a handle of rank above 1 on allocated memory, cut into
    its outermost extent many sub-views of [m] scalars each. *)
Lemma block_geometry (t : Tensor) :
  (2 <= dimension t)%nat -> in_memory t ->
  let m := stride_ (shape t) * product (upper (SubShape (shape t))) in
  let n := outer (shape t) in
  0 <= m /\ is_index n
  /\ stride_ (shape t) * product (upper (shape t)) = m * n
  /\ MSize (shape t) = m * n
  /\ (1 <= n -> MSize (SubShape (shape t)) = m)
  /\ (forall k, 0 <= k <= n ->
        ptr_add (dptr t) (MSize (SubShape (shape t)) * k) = dptr t + m * k)
  /\ (forall k, 0 <= k <= n ->
        to_size (MSize (SubShape (shape t)) * k) = m * k).
Proof.
  intros HD (Hok & Hp & Hend) m n. unfold dimension in HD.
  assert (Hn : is_index n) by (apply Shape_ok_outer; [lia|exact Hok]).
  assert (Hst : 0 <= stride_ (shape t)) by (destruct Hok as [_ [H _]]; exact H).
  assert (Hsub : 0 <= product (upper (SubShape (shape t)))).
  { apply product_index_nonneg, Shape_ok_upper, Shape_ok_SubShape, Hok. }
  assert (Hm : 0 <= m) by (unfold m; nia).
  assert (Hmn : stride_ (shape t) * product (upper (shape t)) = m * n).
  { rewrite (upper_split _ HD), product_app. unfold m, n; simpl. lia. }
  rewrite Hmn in Hend. pose proof ptr_le_size_pow as Hps.
  destruct Hn as [Hn0 Hn1].
  assert (Hk : forall k, 0 <= k <= n -> 0 <= m * k <= m * n) by (intros; nia).
  split; [exact Hm|]. split; [split; assumption|]. split; [exact Hmn|].
  split; [|split; [|split]].
  - rewrite MSize_closed, Hmn. apply wrap_small. specialize (Hk n). lia.
  - intros H1. rewrite MSize_closed. fold m. apply wrap_small.
    specialize (Hk 1). lia.
  - intros k Hkn. rewrite MSize_closed. fold m.
    rewrite ptr_add_to_size_mul. apply ptr_add_exact.
    specialize (Hk k Hkn). lia.
  - intros k Hkn. rewrite MSize_closed. fold m. unfold to_size.
    rewrite wrap_mul_l. apply wrap_small. specialize (Hk k Hkn). lia.
Qed.

(** X13: in a handle of rank above 1 on allocated memory, the sub-view
    at a subscript below the outermost extent lies inside the block of
    the handle, and is itself on allocated memory. *)
Theorem subview_inside_block (t : Tensor) (idx : Z) :
  (2 <= dimension t)%nat -> in_memory t ->
  0 <= idx < outer (shape t) ->
  dptr t <= dptr (Tensor_at t idx)
  /\ dptr (Tensor_at t idx) + MSize (shape (Tensor_at t idx))
     <= dptr t + MSize (shape t)
  /\ in_memory (Tensor_at t idx).
Proof.
  intros HD Hmem Hidx.
  destruct (block_geometry t HD Hmem) as (Hm & Hn & Hmn & Hsz & Hsub & Hptr & _).
  destruct Hmem as (Hok & Hp & Hend).
  rewrite Tensor_at_closed; simpl.
  rewrite Hptr, Hsz, Hsub by lia.
  assert (H1 : stride_ (shape t) * product (upper (SubShape (shape t))) * idx
               + stride_ (shape t) * product (upper (SubShape (shape t)))
               <= stride_ (shape t) * product (upper (SubShape (shape t)))
                  * outer (shape t)) by nia.
  assert (H0 : 0 <= stride_ (shape t) * product (upper (SubShape (shape t))) * idx)
    by nia.
  split; [lia|]. split; [lia|].
  split; [apply Shape_ok_SubShape, Hok|]. simpl. split; [lia|].
  rewrite Hmn in Hend. lia.
Qed.

(** X14: in a handle of rank above 1 on allocated memory, the
    sub-views at two subscripts [i <= j] below the outermost extent
    start [(j - i) * MSize()] scalars apart, [MSize()] being that of a
    sub-view: neighbours lie end to end and no two of them overlap. *)
Theorem subviews_spaced (t : Tensor) (i j : Z) :
  (2 <= dimension t)%nat -> in_memory t ->
  0 <= i -> i <= j -> j < outer (shape t) ->
  dptr (Tensor_at t j)
  = dptr (Tensor_at t i) + (j - i) * MSize (shape (Tensor_at t i))
  /\ (i < j ->
      dptr (Tensor_at t i) + MSize (shape (Tensor_at t i))
      <= dptr (Tensor_at t j)).
Proof.
  intros HD Hmem Hi Hij Hj.
  destruct (block_geometry t HD Hmem) as (Hm & Hn & _ & _ & Hsub & Hptr & _).
  rewrite !Tensor_at_closed; simpl.
  rewrite !Hptr, Hsub by lia. split; [lia|]. intros Hlt. nia.
Qed.

(** X15: in a handle of rank at least 1 on allocated memory whose
    stride covers its extent 0, a slice with bounds
    [0 <= b <= e <= N], N the outermost extent, lies inside the block of
    the handle, and is itself on allocated memory. *)
Theorem slice_inside_block (t : Tensor) (b e : Z) :
  (1 <= dimension t)%nat -> in_memory t -> padded (shape t) ->
  0 <= b -> b <= e -> e <= outer (shape t) ->
  dptr t <= dptr (Slice t b e)
  /\ dptr (Slice t b e) + MSize (shape (Slice t b e))
     <= dptr t + MSize (shape t)
  /\ in_memory (Slice t b e).
Proof.
  intros HD Hmem Hpad Hb Hbe He.
  assert (Hn : is_index (outer (shape t))).
  { apply Shape_ok_outer; [exact HD|]. destruct Hmem as [Hok _]. exact Hok. }
  assert (Hib : is_index b) by (unfold is_index in *; lia).
  assert (Hie : is_index e) by (unfold is_index in *; lia).
  assert (Hsub : index_sub e b = e - b) by (apply index_sub_exact; assumption).
  assert (Hd : is_index (e - b)) by (unfold is_index in *; lia).
  destruct (Nat.eq_dec (dimension t) 1%nat) as [H1|H1].
  - destruct Hmem as (Hok & Hp & Hend).
    assert (Hup : upper (shape t) = []) by (apply upper_rank1, H1).
    rewrite Hup in Hend. simpl in Hend.
    assert (Hout : outer (shape t) = at_ (shape t) 0).
    { unfold outer. unfold dimension in H1. rewrite H1. reflexivity. }
    unfold padded in Hpad. rewrite Hout in *.
    destruct Hok as [_ Hst].
    rewrite Slice_special by exact H1. unfold Tensor1_Slice; simpl.
    rewrite Hsub, !MSize_closed, Hup. unfold upper; simpl.
    rewrite !Z.mul_1_r, !is_index_to_size by assumption.
    rewrite ptr_add_exact by lia.
    split; [lia|]. split; [lia|]. split.
    { split; simpl; [|exact Hd]. constructor; [exact Hd|constructor]. }
    simpl. unfold upper; simpl. lia.
  - assert (H2 : (2 <= dimension t)%nat) by lia.
    destruct (block_geometry t H2 Hmem) as (Hm & _ & Hmn & Hsz & _ & Hptr & Hms).
    destruct Hmem as (Hok & Hp & Hend).
    rewrite Slice_general by exact H1.
    rewrite MSize_Tensor_Slice by exact H2.
    assert (Hshape : stride_ (shape (Tensor_Slice t b e))
                     * product (upper (shape (Tensor_Slice t b e)))
                     = stride_ (shape t) * product (upper (SubShape (shape t)))
                       * (e - b)).
    { rewrite upper_split.
      - rewrite SubShape_Tensor_Slice, outer_Tensor_Slice, Hsub by exact HD.
        rewrite product_app. unfold Tensor_Slice; simpl. lia.
      - unfold Tensor_Slice, dimension, zMaxShape in H2 |- *; simpl.
        rewrite length_insert. exact H2. }
    assert (Hokk : Shape_ok (shape (Tensor_Slice t b e))).
    { unfold Tensor_Slice; simpl. destruct Hok as [Hext Hst].
      split; [|exact Hst]. simpl. rewrite Hsub.
      apply Forall_insert; assumption. }
    unfold in_memory. rewrite Hshape.
    rewrite Tensor_Slice_closed; simpl.
    rewrite Hsub, Hptr, Hms, Hsz by lia.
    rewrite Hmn in Hend.
    assert (Hb1 : 0 <= stride_ (shape t) * product (upper (SubShape (shape t))) * b)
      by nia.
    assert (Hb2 : stride_ (shape t) * product (upper (SubShape (shape t))) * b
                  + stride_ (shape t) * product (upper (SubShape (shape t))) * (e - b)
                  <= stride_ (shape t) * product (upper (SubShape (shape t)))
                     * outer (shape t)) by nia.
    split; [lia|]. split; [lia|].
    split; [|split; [lia|lia]].
    unfold Tensor_Slice in Hokk; simpl in Hokk.
    rewrite Hsub in Hokk. exact Hokk.
Qed.

End BlockFacts.

Section FlatFacts.
Context `{IM : IntModel}.

(** X16: when the upper extents of a handle of rank at least 1
    multiply to an [index_t] value, [FlatTo2D()] keeps the data pointer
    and the [MSize()], and the flat view of a handle on allocated memory
    is on allocated memory, over the same block. *)
Theorem FlatTo2D_keeps_block (t : Tensor) :
  (1 <= dimension t)%nat ->
  0 <= product (upper (shape t)) < 2 ^ index_bits ->
  dptr (Tensor_FlatTo2D t) = dptr t
  /\ MSize (shape (Tensor_FlatTo2D t)) = MSize (shape t)
  /\ (in_memory t -> in_memory (Tensor_FlatTo2D t)).
Proof.
  intros HD Hfit. unfold Tensor_FlatTo2D; simpl.
  rewrite FlatTo2D_closed. unfold to_index. rewrite wrap_small by exact Hfit.
  split; [reflexivity|]. split.
  - rewrite !MSize_closed. unfold upper at 1; simpl.
    rewrite Z.mul_1_r. reflexivity.
  - intros (Hok & Hp & Hend). split; [|split; [exact Hp|]].
    + destruct Hok as [Hext Hst]. split; [|exact Hst]. simpl.
      constructor.
      * eapply Forall_lookup_1; [exact Hext|].
        apply at_lookup. exact HD.
      * constructor; [exact Hfit|constructor].
    + simpl. unfold upper at 1; simpl. rewrite Z.mul_1_r. exact Hend.
Qed.

End FlatFacts.

(** ** The further properties at sample inputs *)

Lemma cube_in_memory : in_memory (IM := lp64) cube.
Proof.
  split; [|by_evaluation].
  split; [repeat constructor|]; by_evaluation.
Defined.

Lemma vec4_in_memory : in_memory (IM := lp64) vec4.
Proof.
  split; [|by_evaluation].
  split; [repeat constructor|]; by_evaluation.
Defined.

Lemma sizes_by_outermost_witness :
  (2 <= zMaxShape small3)%nat
  /\ MSize (IM := lp64) small3
     = size_mul (IM := lp64) (MSize (IM := lp64) (SubShape small3))
         (to_size (IM := lp64) (outer small3)).
Proof.
  assert (HD : (2 <= zMaxShape small3)%nat) by (vm_compute; lia).
  destruct (sizes_by_outermost (IM := lp64) small3 HD) as [Hm _].
  split; [exact HD|exact Hm].
Defined.

Lemma FlatTo2D_idempotent_witness :
  zMaxShape flat56 = 2%nat
  /\ is_index (IM := lp64) (at_ flat56 1)
  /\ FlatTo2D (IM := lp64) flat56 = flat56.
Proof.
  assert (Hi : is_index (IM := lp64) (at_ flat56 1))
    by by_evaluation.
  destruct (FlatTo2D_idempotent (IM := lp64) flat56) as [_ Hid].
  split; [reflexivity|]. split; [exact Hi|]. exact (Hid eq_refl Hi).
Defined.

Lemma Shape_eqb_equivalence_witness :
  zMaxShape small3 = zMaxShape (mkShape [5; 3; 2] 5)
  /\ Shape_eqb small3 (mkShape [5; 3; 2] 5)
     = Shape_eqb (mkShape [5; 3; 2] 5) small3.
Proof.
  destruct Shape_eqb_equivalence as (_ & Hsym & _).
  split; [reflexivity|]. apply Hsym. reflexivity.
Defined.

Lemma Size_of_empty_witness :
  (1 <= zMaxShape holed3)%nat
  /\ In 0 (shape_ holed3)
  /\ Size (IM := lp64) holed3 = 0
  /\ MSize (IM := lp64) holed3 = 0.
Proof.
  assert (HD : (1 <= zMaxShape holed3)%nat)
    by (vm_compute; lia).
  assert (Hin : In 0 (shape_ holed3))
    by (simpl; right; left; reflexivity).
  assert (Hup : In 0 (upper holed3))
    by (simpl; left; reflexivity).
  destruct (Size_of_empty (IM := lp64) holed3 HD) as [Hs Hm].
  split; [exact HD|]. split; [exact Hin|].
  split; [exact (Hs Hin)|exact (Hm Hup)].
Defined.

Lemma Size_of_built_witness :
  is_index (IM := lp64) 3 /\ is_index (IM := lp64) 4
  /\ Size (IM := lp64) (Shape1 0 3) = 3
  /\ Size (IM := lp64) (Shape2 0 4 3) = 4 * 3.
Proof.
  assert (H3 : is_index (IM := lp64) 3) by by_evaluation.
  assert (H4 : is_index (IM := lp64) 4) by by_evaluation.
  destruct (Size_of_built (IM := lp64) 0 4 3 H3 H4) as [H1 H2].
  split; [exact H3|]. split; [exact H4|]. split; [exact H1|].
  apply H2. by_evaluation.
Defined.

Lemma built_shapes_compose_witness :
  0 <= 4 * 3 < 2 ^ @index_bits lp64
  /\ FlatTo2D (IM := lp64) (Shape3 8 4 3 5) = Shape2 8 (4 * 3) 5.
Proof.
  assert (Hfit : 0 <= 4 * 3 < 2 ^ @index_bits lp64) by by_evaluation.
  destruct (built_shapes_compose (IM := lp64) 8 0 4 3 5) as (_ & _ & _ & Hf).
  split; [exact Hfit|exact (Hf Hfit)].
Defined.

Lemma subscript_in_flat_view_witness :
  dimension cube = S (length [2; 1])
  /\ subscript (IM := lp64) cube [2; 1; 3] = Some (ScalarRef 159)
  /\ cell (IM := lp64) cube 7 3 = 159.
Proof.
  assert (Hidx : Forall (is_index (IM := lp64)) ([2; 1] ++ [3]))
    by (repeat constructor; by_evaluation).
  assert (Hrow : is_index (IM := lp64) (flat_row (upper (shape cube)) [2; 1]))
    by by_evaluation.
  pose proof (subscript_in_flat_view (IM := lp64) cube [2; 1] 3 eq_refl Hidx Hrow)
    as H.
  split; [reflexivity|]. split; [exact H|reflexivity].
Defined.

Lemma Slice_of_Slice_witness :
  is_index (IM := lp64) (1 + 2)
  /\ Slice (IM := lp64) (Slice (IM := lp64) cube 1 4) 1 2
     = Slice (IM := lp64) cube 2 3.
Proof.
  assert (Hs : is_index (IM := lp64) (1 + 2)) by by_evaluation.
  split; [exact Hs|].
  apply (Slice_of_Slice (IM := lp64) cube 1 4 1 2); by_evaluation.
Defined.

Lemma Slice_whole_witness :
  0 <= dptr cube < 2 ^ @ptr_bits lp64
  /\ is_index (IM := lp64) (outer (shape cube))
  /\ Slice (IM := lp64) cube 0 4 = cube
  /\ Slice (IM := lp64) vec4 0 4 = mkTensor 0 (mkShape [4] 4).
Proof.
  assert (Hp : 0 <= dptr cube < 2 ^ @ptr_bits lp64) by by_evaluation.
  assert (Hn : is_index (IM := lp64) (outer (shape cube))) by by_evaluation.
  assert (Hp' : 0 <= dptr vec4 < 2 ^ @ptr_bits lp64) by by_evaluation.
  assert (Hn' : is_index (IM := lp64) (outer (shape vec4))) by by_evaluation.
  destruct (Slice_whole (IM := lp64) cube Hp Hn) as [Hgen _].
  destruct (Slice_whole (IM := lp64) vec4 Hp' Hn') as [_ Hone].
  split; [exact Hp|]. split; [exact Hn|]. split.
  - apply Hgen. vm_compute. lia.
  - exact (Hone eq_refl).
Defined.

Lemma Slices_adjacent_witness :
  (1 <= dimension cube)%nat
  /\ dptr (Slice (IM := lp64) cube 1 3) = 124
  /\ MSize (IM := lp64) (shape (Slice (IM := lp64) cube 1 3)) = 48
  /\ dptr (Slice (IM := lp64) cube 3 4) = 172.
Proof.
  assert (HD : (1 <= dimension cube)%nat) by (vm_compute; lia).
  assert (H1 : is_index (IM := lp64) 1) by by_evaluation.
  assert (H3 : is_index (IM := lp64) 3) by by_evaluation.
  assert (H4 : is_index (IM := lp64) 4) by by_evaluation.
  assert (H13 : 1 <= 3) by lia.
  assert (H34 : 3 <= 4) by lia.
  pose proof (Slices_adjacent (IM := lp64) cube 1 3 4 HD H1 H3 H4 H13 H34) as H.
  split; [exact HD|]. split; [reflexivity|]. split; [reflexivity|exact H].
Defined.

Lemma Slice_empty_witness :
  (1 <= dimension cube)%nat /\ is_index (IM := lp64) 2
  /\ Size (IM := lp64) (shape (Slice (IM := lp64) cube 2 2)) = 0.
Proof.
  assert (HD : (1 <= dimension cube)%nat) by (vm_compute; lia).
  assert (H2 : is_index (IM := lp64) 2) by by_evaluation.
  destruct (Slice_empty (IM := lp64) cube 2 HD H2) as (_ & Hs & _).
  split; [exact HD|]. split; [exact H2|exact Hs].
Defined.

Lemma subview_inside_block_witness :
  (2 <= dimension cube)%nat /\ in_memory (IM := lp64) cube
  /\ dptr cube <= dptr (Tensor_at (IM := lp64) cube 3)
  /\ in_memory (IM := lp64) (Tensor_at (IM := lp64) cube 3).
Proof.
  assert (HD : (2 <= dimension cube)%nat) by (vm_compute; lia).
  assert (Hi : 0 <= 3 < outer (shape cube)) by by_evaluation.
  destruct (subview_inside_block (IM := lp64) cube 3 HD cube_in_memory Hi)
    as (Hlo & _ & Hmem).
  split; [exact HD|]. split; [exact cube_in_memory|].
  split; [exact Hlo|exact Hmem].
Defined.

Lemma subviews_spaced_witness :
  (2 <= dimension cube)%nat /\ in_memory (IM := lp64) cube
  /\ dptr (Tensor_at (IM := lp64) cube 1)
     + MSize (IM := lp64) (shape (Tensor_at (IM := lp64) cube 1))
     <= dptr (Tensor_at (IM := lp64) cube 3).
Proof.
  assert (HD : (2 <= dimension cube)%nat) by (vm_compute; lia).
  assert (H0 : 0 <= 1) by lia.
  assert (H13 : 1 <= 3) by lia.
  assert (H3 : 3 < outer (shape cube)) by by_evaluation.
  destruct (subviews_spaced (IM := lp64) cube 1 3 HD cube_in_memory H0 H13 H3)
    as [_ Hgap].
  split; [exact HD|]. split; [exact cube_in_memory|]. apply Hgap. lia.
Defined.

Lemma slice_inside_block_witness :
  (1 <= dimension vec4)%nat /\ in_memory (IM := lp64) vec4
  /\ padded (shape vec4)
  /\ in_memory (IM := lp64) (Slice (IM := lp64) vec4 1 3)
  /\ in_memory (IM := lp64) (Slice (IM := lp64) cube 1 3).
Proof.
  assert (HD : (1 <= dimension vec4)%nat) by (vm_compute; lia).
  assert (HD' : (1 <= dimension cube)%nat) by (vm_compute; lia).
  assert (Hpad : padded (shape vec4)) by by_evaluation.
  assert (Hpad' : padded (shape cube)) by by_evaluation.
  assert (H1 : 0 <= 1) by lia.
  assert (H13 : 1 <= 3) by lia.
  assert (He : 3 <= outer (shape vec4)) by by_evaluation.
  assert (He' : 3 <= outer (shape cube)) by by_evaluation.
  destruct (slice_inside_block (IM := lp64) vec4 1 3 HD vec4_in_memory Hpad H1 H13 He)
    as (_ & _ & Hm).
  destruct (slice_inside_block (IM := lp64) cube 1 3 HD' cube_in_memory Hpad' H1 H13 He')
    as (_ & _ & Hm').
  split; [exact HD|]. split; [exact vec4_in_memory|]. split; [exact Hpad|].
  split; [exact Hm|exact Hm'].
Defined.

Lemma FlatTo2D_keeps_block_witness :
  (1 <= dimension cube)%nat
  /\ 0 <= product (upper (shape cube)) < 2 ^ @index_bits lp64
  /\ MSize (IM := lp64) (shape (Tensor_FlatTo2D (IM := lp64) cube))
     = MSize (IM := lp64) (shape cube)
  /\ in_memory (IM := lp64) (Tensor_FlatTo2D (IM := lp64) cube).
Proof.
  assert (HD : (1 <= dimension cube)%nat) by (vm_compute; lia).
  assert (Hfit : 0 <= product (upper (shape cube)) < 2 ^ @index_bits lp64)
    by by_evaluation.
  destruct (FlatTo2D_keeps_block (IM := lp64) cube HD Hfit) as (_ & Hm & Hmem).
  split; [exact HD|]. split; [exact Hfit|]. split; [exact Hm|].
  exact (Hmem cube_in_memory).
Defined.
